(** * selena: uniform random sampling over in-memory sequences

    A shallow embedding of [include/random.hpp]: the two uninstantiable
    classes [random_prng] and [random_trng], each with its four overloads of
    [random] and its private per-thread engine accessor.

    The C++ standard library pieces the header relies on ([std::random_device],
    [std::mt19937_64], [std::uniform_int_distribution<size_t>]) are not part of
    the repository; they are taken as an interface ([StdRandom]) and the part
    of their documented contract the proofs need is stated separately
    ([StdRandomContract]).  [std::vector<T>::max_size()], beyond which
    [reserve] throws [std::length_error], is a parameter too
    ([VectorLimits]). *)

From Stdlib Require Import ZArith Lia Ascii.
From Stdlib Require String.
From stdpp Require Import base option list gmap.

Local Open Scope Z_scope.

(** ** size_t *)

(** [size_t] is taken as the 64-bit unsigned type the engine name
    [mt19937_64] suggests; values are [Z] and the one subtraction of the
    header is written with its wrap-around. *)
Definition size_t_bits : Z := 64.
Definition size_t_modulus : Z := 2 ^ size_t_bits.
Definition size_t_sub (x y : Z) : Z := (x - y) mod size_t_modulus.

(** ** The standard library interface *)

(** States of the three standard classes and the operations the header calls.
    A distribution object is a local variable that [operator()] receives by
    non-const [this], so a call returns the object it leaves behind as well as
    the drawn value and the advanced engine.  [operator()] is a template over
    the engine type; the header instantiates it at [std::mt19937_64] and at
    [std::random_device]. *)
Class StdRandom : Type := {
  random_device : Type;
  mt19937_64 : Type;
  uniform_int_distribution : Type;
  (* std::random_device{}  *)
  random_device_ctor : random_device;
  (* random_device::operator()() *)
  random_device_call : random_device → Z * random_device;
  (* std::mt19937_64{ seed } *)
  mt19937_64_ctor : Z → mt19937_64;
  (* std::uniform_int_distribution<size_t>{ a, b } *)
  uniform_int_distribution_ctor : Z → Z → uniform_int_distribution;
  (* uniform_int_distribution::param(), as the pair (a(), b()) *)
  uniform_int_distribution_param : uniform_int_distribution → Z * Z;
  (* uniform_int_distribution::operator()(std::mt19937_64&) *)
  call_mt19937_64 :
    uniform_int_distribution → mt19937_64 →
    Z * uniform_int_distribution * mt19937_64;
  (* uniform_int_distribution::operator()(std::random_device&) *)
  call_random_device :
    uniform_int_distribution → random_device →
    Z * uniform_int_distribution * random_device
}.

(** [T{}]: the value-initialised element. *)
Class ValueInit (T : Type) : Type := value_init : T.

(** [std::vector<T>::max_size()]. *)
Class VectorLimits (T : Type) : Type := max_size : Z.

(** The exception a call of the header into [std::vector] can raise. *)
Inductive exception : Type := length_error.

(** [ret_vec.reserve(new_cap)] on a vector held by value: throws
    [std::length_error] when [new_cap > max_size()]; otherwise only the
    capacity changes, which the value of the vector does not show. *)
Definition reserve {T : Type} `{!VectorLimits T} (new_cap : Z)
  : exception + unit :=
  if bool_decide (max_size < new_cap) then inl length_error else inr ().

(** ** Program state *)

(** A reference parameter ([const std::vector<T>&], [const std::array<T, N>&])
    is a location of the caller's object. *)
Definition ref : Type := positive.

Section state.
Context `{std : StdRandom} {T : Type}.

(** What one thread can reach during a call: the caller's sequence objects,
    and the block-scope [static thread_local] variables of the two private
    accessors, each [None] until control first passes through its
    declaration. *)
Record world : Type := World {
  objects : gmap ref (list T);
  (* _impl_prng_engine()::random_device_seed *)
  random_device_seed : option random_device;
  (* _impl_prng_engine()::generator *)
  generator : option mt19937_64;
  (* _impl_trng_engine()::device *)
  device : option random_device
}.

(** State and undefined behaviour: [None] stands for an execution the
    language leaves undefined (an access outside the sequence, a dangling
    reference). *)
Definition M (A : Type) : Type := world → option (A * world).

Definition ret {A} (a : A) : M A := λ w, Some (a, w).

Definition bind {A B} (m : M A) (k : A → M B) : M B :=
  λ w, match m w with
       | Some (a, w') => k a w'
       | None => None
       end.

Definition undefined {A} : M A := λ _, None.

(** Reads through a reference to a sequence. *)
Definition deref (s : ref) : M (list T) :=
  λ w, match objects w !! s with
       | Some l => Some (l, w)
       | None => None
       end.

(* s.empty() *)
Definition empty (s : ref) : M bool :=
  bind (deref s) (λ l, ret (bool_decide (l = []))).

(* s.size() *)
Definition size (s : ref) : M Z :=
  bind (deref s) (λ l, ret (Z.of_nat (length l))).

(* s[i], for the unchecked operator[] of vector and array *)
Definition subscript (s : ref) (i : Z) : M T :=
  bind (deref s) (λ l,
    if bool_decide (0 ≤ i < Z.of_nat (length l))
    then match l !! Z.to_nat i with
         | Some x => ret x
         | None => undefined
         end
    else undefined).

(* a[i] = x on a local std::array held by value *)
Definition array_assign (a : list T) (i : Z) (x : T) : M (list T) :=
  if bool_decide (0 ≤ i < Z.of_nat (length a))
  then ret (<[Z.to_nat i := x]> a)
  else undefined.

(** [for (size_t i{ 0 }; i < count; ++i) body]: [count] iterations, the
    body seeing [i = 0, 1, ...]; [i] stays below [count], so [++i] never
    wraps. *)
Fixpoint for_range {S} (n : nat) (i : Z) (body : Z → S → M S) (s : S)
  : M S :=
  match n with
  | O => ret s
  | Datatypes.S n' => bind (body i s) (for_range n' (i + 1) body)
  end.

Definition for_loop {S} (count : Z) (body : Z → S → M S) (s : S) : M S :=
  for_range (Z.to_nat count) 0 body s.
End state.

Arguments world {std} T.
Arguments M {std} T A.

#[global] Instance M_ret `{std : StdRandom} {T : Type} : MRet (M T) :=
  λ A, @ret std T A.
#[global] Instance M_bind `{std : StdRandom} {T : Type} : MBind (M T) :=
  λ A B k m, @bind std T A B m k.

(** ** class random_prng *)

Module random_prng.
Section random_prng.
Context `{std : StdRandom} {T : Type} `{!ValueInit T}.

(** [_impl_prng_engine()].  The two thread-local statics are initialised
    in declaration order the first time the thread gets here; the generator
    is seeded with one word read from the freshly built device.  The
    returned reference designates the [generator] slot of the thread. *)
Definition _impl_prng_engine : M T unit :=
  λ w,
    let seed_dev := default random_device_ctor (random_device_seed w) in
    match generator w with
    | Some g =>
        Some ((), World (objects w) (Some seed_dev) (Some g) (device w))
    | None =>
        let '(seed, seed_dev') := random_device_call seed_dev in
        Some ((), World (objects w) (Some seed_dev')
                        (Some (mt19937_64_ctor seed)) (device w))
    end.

(** [distribution(engine)] on the engine [_impl_prng_engine()] refers to. *)
Definition distribution_call (distribution : uniform_int_distribution)
  : M T (Z * uniform_int_distribution) :=
  λ w,
    match generator w with
    | Some g =>
        let '(i, distribution', g') := call_mt19937_64 distribution g in
        Some ((i, distribution'),
              World (objects w) (random_device_seed w) (Some g') (device w))
    | None => None
    end.

(* template<typename T> static T random(const std::vector<T>& vec) *)
Definition random_vec (vec : ref) : M T T :=
  e ← empty vec;
  if e : bool then mret value_init else
  n ← size vec;
  let distribution := uniform_int_distribution_ctor 0 (size_t_sub n 1) in
  _ ← _impl_prng_engine;
  '(i, _) ← distribution_call distribution;
  subscript vec i.

(* template<typename T>
   static std::vector<T> random(const std::vector<T>& vec, const size_t count) *)
(** [count] is a [size_t].  The result is the returned vector, or the
    exception that leaves the function when [reserve] refuses [count]. *)
Definition random_vec_n `{!VectorLimits T} (vec : ref) (count : Z)
  : M T (exception + list T) :=
  e ← empty vec;
  if e : bool then mret (inr []) else
  if bool_decide (count = 0) then mret (inr []) else
  if bool_decide (count = 1) then (x ← random_vec vec; mret (inr [x])) else
  let ret_vec : list T := [] in
  match reserve (T := T) count with
  | inl thrown => mret (inl thrown)
  | inr _ =>
      n ← size vec;
      let distribution :=
        uniform_int_distribution_ctor 0 (size_t_sub n 1) in
      _ ← _impl_prng_engine;
      '(ret_vec, _) ←
        for_loop count
          (λ _ '(ret_vec, distribution),
             '(i, distribution) ← distribution_call distribution;
             x ← subscript vec i;
             mret (ret_vec ++ [x], distribution))
          (ret_vec, distribution);
      mret (inr ret_vec)
  end.

(* template<typename T, size_t N> static T random(const std::array<T, N>& arr) *)
Definition random_arr (arr : ref) : M T T :=
  e ← empty arr;
  if e : bool then mret value_init else
  n ← size arr;
  let distribution := uniform_int_distribution_ctor 0 (size_t_sub n 1) in
  _ ← _impl_prng_engine;
  '(i, _) ← distribution_call distribution;
  subscript arr i.

(* template<size_t Count, typename T, size_t N>
   static std::array<T, Count> random(const std::array<T, N>& arr) *)
Definition random_arr_n (Count : Z) (arr : ref) : M T (list T) :=
  e ← empty arr;
  if e : bool then mret (replicate (Z.to_nat Count) value_init) else
  if bool_decide (Count = 0)
  then mret (replicate (Z.to_nat Count) value_init) else
  let ret_arr : list T := replicate (Z.to_nat Count) value_init in
  n ← size arr;
  let distribution := uniform_int_distribution_ctor 0 (size_t_sub n 1) in
  _ ← _impl_prng_engine;
  '(ret_arr, _) ←
    for_loop Count
      (λ i '(ret_arr, distribution),
         '(k, distribution) ← distribution_call distribution;
         x ← subscript arr k;
         ret_arr ← array_assign ret_arr i x;
         mret (ret_arr, distribution))
      (ret_arr, distribution);
  mret ret_arr.
End random_prng.
End random_prng.

(** ** class random_trng *)

Module random_trng.
Section random_trng.
Context `{std : StdRandom} {T : Type} `{!ValueInit T}.

(** [_impl_trng_engine()]: the thread's device, built on the first call.
    The returned reference designates the [device] slot of the thread. *)
Definition _impl_trng_engine : M T unit :=
  λ w,
    let dev := default random_device_ctor (device w) in
    Some ((), World (objects w) (random_device_seed w) (generator w)
                    (Some dev)).

(** [distribution(engine)] on the device [_impl_trng_engine()] refers to. *)
Definition distribution_call (distribution : uniform_int_distribution)
  : M T (Z * uniform_int_distribution) :=
  λ w,
    match device w with
    | Some dev =>
        let '(i, distribution', dev') :=
          call_random_device distribution dev in
        Some ((i, distribution'),
              World (objects w) (random_device_seed w) (generator w)
                    (Some dev'))
    | None => None
    end.

(* template<typename T> static T random(const std::vector<T>& vec) *)
Definition random_vec (vec : ref) : M T T :=
  e ← empty vec;
  if e : bool then mret value_init else
  n ← size vec;
  let distribution := uniform_int_distribution_ctor 0 (size_t_sub n 1) in
  _ ← _impl_trng_engine;
  '(i, _) ← distribution_call distribution;
  subscript vec i.

(* template<typename T>
   static std::vector<T> random(const std::vector<T>& vec, const size_t count) *)
(** [count] is a [size_t].  The result is the returned vector, or the
    exception that leaves the function when [reserve] refuses [count]. *)
Definition random_vec_n `{!VectorLimits T} (vec : ref) (count : Z)
  : M T (exception + list T) :=
  e ← empty vec;
  if e : bool then mret (inr []) else
  if bool_decide (count = 0) then mret (inr []) else
  if bool_decide (count = 1) then (x ← random_vec vec; mret (inr [x])) else
  let ret_vec : list T := [] in
  match reserve (T := T) count with
  | inl thrown => mret (inl thrown)
  | inr _ =>
      n ← size vec;
      let distribution :=
        uniform_int_distribution_ctor 0 (size_t_sub n 1) in
      _ ← _impl_trng_engine;
      '(ret_vec, _) ←
        for_loop count
          (λ _ '(ret_vec, distribution),
             '(i, distribution) ← distribution_call distribution;
             x ← subscript vec i;
             mret (ret_vec ++ [x], distribution))
          (ret_vec, distribution);
      mret (inr ret_vec)
  end.

(* template<typename T, size_t N> static T random(const std::array<T, N>& arr) *)
Definition random_arr (arr : ref) : M T T :=
  e ← empty arr;
  if e : bool then mret value_init else
  n ← size arr;
  let distribution := uniform_int_distribution_ctor 0 (size_t_sub n 1) in
  _ ← _impl_trng_engine;
  '(i, _) ← distribution_call distribution;
  subscript arr i.

(* template<size_t Count, typename T, size_t N>
   static std::array<T, Count> random(const std::array<T, N>& arr) *)
Definition random_arr_n (Count : Z) (arr : ref) : M T (list T) :=
  e ← empty arr;
  if e : bool then mret (replicate (Z.to_nat Count) value_init) else
  if bool_decide (Count = 0)
  then mret (replicate (Z.to_nat Count) value_init) else
  let ret_arr : list T := replicate (Z.to_nat Count) value_init in
  n ← size arr;
  let distribution := uniform_int_distribution_ctor 0 (size_t_sub n 1) in
  _ ← _impl_trng_engine;
  '(ret_arr, _) ←
    for_loop Count
      (λ i '(ret_arr, distribution),
         '(k, distribution) ← distribution_call distribution;
         x ← subscript arr k;
         ret_arr ← array_assign ret_arr i x;
         mret (ret_arr, distribution))
      (ret_arr, distribution);
  mret ret_arr.
End random_trng.
End random_trng.

(** ** Specification-side definitions *)

Section spec.
Context `{std : StdRandom}.

(** The part of the documented behaviour of
    [std::uniform_int_distribution] that the bounds proofs use: the object
    remembers the closed range it was built with, a call does not change
    that range, and a call on a range [a ≤ b] yields a value inside it. *)
Record StdRandomContract : Prop := {
  param_ctor : ∀ a b,
    uniform_int_distribution_param (uniform_int_distribution_ctor a b)
    = (a, b);
  param_call_mt19937_64 : ∀ d g,
    uniform_int_distribution_param (call_mt19937_64 d g).1.2
    = uniform_int_distribution_param d;
  param_call_random_device : ∀ d r,
    uniform_int_distribution_param (call_random_device d r).1.2
    = uniform_int_distribution_param d;
  range_call_mt19937_64 : ∀ d g a b,
    uniform_int_distribution_param d = (a, b) → a ≤ b →
    a ≤ (call_mt19937_64 d g).1.1 ≤ b;
  range_call_random_device : ∀ d r a b,
    uniform_int_distribution_param d = (a, b) → a ≤ b →
    a ≤ (call_random_device d r).1.1 ≤ b
}.

(** A distribution object carries no behaviour beyond its range: what a
    call yields, and where it leaves the engine, is a function of the range
    and the engine.  (For [uniform_int_distribution] the range is the whole
    state in the common implementations, and [reset()] does nothing.) *)
Definition memoryless {E : Type}
    (call : uniform_int_distribution → E → Z * uniform_int_distribution * E)
  : Prop :=
  ∀ d d' e,
    uniform_int_distribution_param d = uniform_int_distribution_param d' →
    (call d e).1.1 = (call d' e).1.1 ∧ (call d e).2 = (call d' e).2.

(** The values [n] successive calls of one distribution object produce,
    first draw first, with the object and the engine they leave behind. *)
Fixpoint draws {E : Type}
    (call : uniform_int_distribution → E → Z * uniform_int_distribution * E)
    (n : nat) (d : uniform_int_distribution) (e : E)
  : list Z * uniform_int_distribution * E :=
  match n with
  | O => ([], d, e)
  | S n' =>
      let '(i, d', e') := call d e in
      let '(js, d'', e'') := draws call n' d' e' in
      (i :: js, d'', e'')
  end.

(** [r] holds, position by position, the elements of [S] at [indices]. *)
Definition picked {T} (S : list T) (indices : list Z) (r : list T) : Prop :=
  Forall2 (λ i x, 0 ≤ i ∧ S !! Z.to_nat i = Some x) indices r.

(** Every index of [js] denotes an element of [S]. *)
Definition in_bounds {T} (S : list T) (js : list Z) : Prop :=
  Forall (λ j, 0 ≤ j < Z.of_nat (length S)) js.

(** The range every operation of the header gives its distribution for a
    sequence [S]. *)
Definition index_distribution {T} (S : list T) : uniform_int_distribution :=
  uniform_int_distribution_ctor 0 (size_t_sub (Z.of_nat (length S)) 1).

(** The thread-local state as [_impl_prng_engine()] leaves it, and the
    engine it then refers to. *)
Definition prng_seed_device {T} (w : world T) : random_device :=
  let dev := default random_device_ctor (random_device_seed w) in
  match generator w with
  | Some _ => dev
  | None => (random_device_call dev).2
  end.

Definition prng_engine {T} (w : world T) : mt19937_64 :=
  match generator w with
  | Some g => g
  | None =>
      mt19937_64_ctor
        (random_device_call
           (default random_device_ctor (random_device_seed w))).1
  end.

(** [w] with the thread's prng statics built and the generator at [g]. *)
Definition prng_at {T} (w : world T) (g : mt19937_64) : world T :=
  World (objects w) (Some (prng_seed_device w)) (Some g) (device w).

(** The device [_impl_trng_engine()] refers to, and [w] with it at [r]. *)
Definition trng_engine {T} (w : world T) : random_device :=
  default random_device_ctor (device w).

Definition trng_at {T} (w : world T) (r : random_device) : world T :=
  World (objects w) (random_device_seed w) (generator w) (Some r).

(** Both samplers see the same outputs: related engines give the one
    distribution object the same value and leave it in the same state. *)
Definition same_stream (sim : mt19937_64 → random_device → Prop) : Prop :=
  ∀ d g r, sim g r →
    (call_mt19937_64 d g).1 = (call_random_device d r).1 ∧
    sim (call_mt19937_64 d g).2 (call_random_device d r).2.

(** Two thread states a prng call and a trng call can be compared on. *)
Definition driven_alike {T} (sim : mt19937_64 → random_device → Prop)
    (w1 w2 : world T) : Prop :=
  objects w1 = objects w2 ∧ sim (prng_engine w1) (trng_engine w2).

(** What outlives a call on the thread: its three statics. *)
Definition thread_statics {T} (w : world T)
  : option random_device * option mt19937_64 * option random_device :=
  (random_device_seed w, generator w, device w).

(** An operation on a sequence reference only reads through it: called on a
    live reference it returns, every caller object is as before, and the
    statics it leaves are those it would leave for any other sequence of the
    same length held anywhere, so nothing of the argument stays behind. *)
Definition reads_only {T A} (op : ref → M T A) : Prop :=
  ∀ (w : world T) s S, objects w !! s = Some S →
    ∃ r w', op s w = Some (r, w') ∧ objects w' = objects w ∧
      ∀ (v : world T) s2 S2,
        objects v !! s2 = Some S2 → length S2 = length S →
        thread_statics v = thread_statics w →
        ∃ r2 v', op s2 v = Some (r2, v') ∧
                 thread_statics v' = thread_statics w'.

Definition same_outcome {T A} (sim : mt19937_64 → random_device → Prop)
    (o1 o2 : option (A * world T)) : Prop :=
  match o1, o2 with
  | Some (a1, w1), Some (a2, w2) => a1 = a2 ∧ driven_alike sim w1 w2
  | None, None => True
  | _, _ => False
  end.
End spec.

(** The multi-draw overload of [random_prng] with the distribution object
    rebuilt for every element instead of built once before the loop: the
    variant the reuse in [random_prng.random_vec_n] is compared with. *)
Module recreate.
Section recreate.
Context `{std : StdRandom} {T : Type} `{!ValueInit T}.

Definition random_vec_n `{!VectorLimits T} (vec : ref) (count : Z)
  : M T (exception + list T) :=
  e ← empty vec;
  if e : bool then mret (inr []) else
  if bool_decide (count = 0) then mret (inr []) else
  if bool_decide (count = 1)
  then (x ← random_prng.random_vec vec; mret (inr [x])) else
  let ret_vec : list T := [] in
  match reserve (T := T) count with
  | inl thrown => mret (inl thrown)
  | inr _ =>
      _ ← random_prng._impl_prng_engine;
      ret_vec ←
        for_loop count
          (λ _ ret_vec,
             n ← size vec;
             let distribution :=
               uniform_int_distribution_ctor 0 (size_t_sub n 1) in
             '(i, _) ← random_prng.distribution_call distribution;
             x ← subscript vec i;
             mret (ret_vec ++ [x]))
          ret_vec;
      mret (inr ret_vec)
  end.
End recreate.
End recreate.

(** ** A small executable instance of the interface

    A 64-bit linear congruential engine stands for both standard engines and
    the distribution reduces its output into the range.  It is used to run
    the embedding on concrete inputs. *)
Module toy.
Definition lcg (s : Z) : Z :=
  (s * 6364136223846793005 + 1442695040888963407) mod 2 ^ 64.

Definition reduce (d : Z * Z) (s : Z) : Z * (Z * Z) * Z :=
  let s' := lcg s in
  (d.1 + (s' / 2 ^ 33) mod (d.2 - d.1 + 1), d, s').

#[export] Instance std : StdRandom := {|
  random_device := Z;
  mt19937_64 := Z;
  uniform_int_distribution := Z * Z;
  random_device_ctor := 20260101;
  random_device_call := λ s, (lcg s / 2 ^ 32, lcg s);
  mt19937_64_ctor := λ seed, seed;
  uniform_int_distribution_ctor := λ a b, (a, b);
  uniform_int_distribution_param := λ d, d;
  call_mt19937_64 := reduce;
  call_random_device := reduce
|}.

#[export] Instance Z_value_init : ValueInit Z := 0.

(** [max_size()] of a vector of eight-byte elements on a 64-bit host. *)
#[export] Instance Z_max_size : VectorLimits Z := 1152921504606846975.

(** One caller object at location 1, engines not yet built. *)
Definition fresh (S : list Z) : world Z :=
  World {[ 1%positive := S ]} None None None.

(** The same with both samplers' engines built and at the same state. *)
Definition warm (S : list Z) : world Z :=
  World {[ 1%positive := S ]} (Some 11) (Some 42) (Some 42).
End toy.

(** ** Specification-side vocabulary for the engine life cycle *)

Section lifecycle.
Context `{std : StdRandom} {T : Type}.

(** [op], called on any live reference to a sequence [S], completes: it
    returns a value or, where its result type has room for one, the
    exception that left it; and [P S] relates the thread state before and
    after. *)
Definition completes_with {A} (P : list T → world T → world T → Prop)
    (op : ref → M T A) : Prop :=
  ∀ (w : world T) s S, objects w !! s = Some S →
    ∃ r w', op s w = Some (r, w') ∧ P S w w'.

(** What an operation of random_prng may do to the thread.  The device of
    random_trng is left alone.  A generator that is built is never rebuilt
    or reseeded: the call leaves the seed device as it was and the generator
    where some number of draws of the call's distribution took it.  On a
    thread without statics the call either builds nothing, or reads the new
    seed device exactly once, seeds the generator with that word and
    advances it by draws only. *)
Definition prng_footprint (S : list T) (w w' : world T) : Prop :=
  device w' = device w ∧
  (∀ r g, random_device_seed w = Some r → generator w = Some g →
          random_device_seed w' = Some r ∧
          ∃ n, generator w'
               = Some (draws call_mt19937_64 n (index_distribution S) g).2) ∧
  (random_device_seed w = None → generator w = None →
   w' = w ∨
   (random_device_seed w' = Some (random_device_call random_device_ctor).2 ∧
    ∃ n, generator w'
         = Some (draws call_mt19937_64 n (index_distribution S)
                   (mt19937_64_ctor
                      (random_device_call random_device_ctor).1)).2)).

(** What an operation of random_trng may do to the thread: the statics of
    random_prng are left alone, so no generator is ever built or advanced;
    its own device is untouched or left where some number of draws of the
    call's distribution took it. *)
Definition trng_footprint (S : list T) (w w' : world T) : Prop :=
  random_device_seed w' = random_device_seed w ∧
  generator w' = generator w ∧
  (w' = w ∨
   ∃ n, device w'
        = Some (draws call_random_device n (index_distribution S)
                  (trng_engine w)).2).
End lifecycle.

(** ** The string helpers of the utility header *)

(** The C and C++ library functions the helpers call, as the standards
    describe them in the "C" locale.  A character is an [ascii] (eight bits);
    the [int] a character is promoted to is a [Z]. *)
Module cxx.
Export String.StringSyntax.
Delimit Scope string_scope with string.

Definition str (s : String.string) : list ascii :=
  String.list_ascii_of_string s.
Arguments str s%_string.

(* static_cast<unsigned char>(c), as the int it is promoted to *)
Definition unsigned_char (c : ascii) : Z := Z.of_N (N_of_ascii c).

(* the int value of an ASCII character literal or C-string element *)
Definition literal (c : ascii) : Z := Z.of_N (N_of_ascii c).

(* static_cast<char>(ch) for ch in the range of unsigned char *)
Definition to_char (ch : Z) : ascii := ascii_of_N (Z.to_N ch).

(* int std::tolower(int ch) *)
Definition tolower (ch : Z) : Z :=
  if bool_decide (65 ≤ ch ≤ 90) then ch + 32 else ch.

(* int std::isgraph(int ch), as a truth value *)
Definition isgraph (ch : Z) : bool := bool_decide (33 ≤ ch ≤ 126).

(* std::string::npos *)
Definition npos : Z := size_t_modulus - 1.

(** [pat] matches at the front of [text], elements compared by
    [pred text_element pat_element]. *)
Fixpoint starts_with {A} (pred : A → A → bool) (text pat : list A) : bool :=
  match pat with
  | [] => true
  | p :: pat' =>
      match text with
      | [] => false
      | t :: text' => pred t p && starts_with pred text' pat'
      end
  end.

(** Offset of the first place in [text] where [pat] matches. *)
Fixpoint first_match {A} (pred : A → A → bool) (text pat : list A)
  : option nat :=
  if starts_with pred text pat then Some O
  else match text with
       | [] => None
       | _ :: text' => S <$> first_match pred text' pat
       end.

(* std::string::find(const char* s): position of the first occurrence,
   npos when there is none *)
Definition find (s pat : list ascii) : Z :=
  match first_match Ascii.eqb s pat with
  | Some n => Z.of_nat n
  | None => npos
  end.

(* s[i] on a const std::string or a C string: the element, the terminating
   null character at i == size(), undefined beyond *)
Definition subscript (s : list ascii) (i : Z) : option ascii :=
  if bool_decide (0 ≤ i < Z.of_nat (length s)) then s !! Z.to_nat i
  else if bool_decide (i = Z.of_nat (length s)) then Some zero
  else None.

(* std::equal(first1, last1, first2, pred): stops at the first mismatch;
   reading the second range past its end is undefined *)
Fixpoint equal {A} (pred : A → A → bool) (l1 l2 : list A) : option bool :=
  match l1 with
  | [] => Some true
  | x :: l1' =>
      match l2 with
      | [] => None
      | y :: l2' => if pred x y then equal pred l1' l2' else Some false
      end
  end.

(* std::search(first, last, s_first, s_last, pred): the returned iterator as
   an offset from first; last is the offset length text *)
Definition search {A} (pred : A → A → bool) (text pat : list A) : nat :=
  default (length text) (first_match pred text pat).
End cxx.

Module utils.
Import cxx.

(** A loop whose body is [if (...) return false;]: [fails i] tells whether
    the condition holds at [i].  [Some false] when the function returned from
    inside the loop, [Some true] when the loop ran to its end. *)
Fixpoint for_return_false (n : nat) (i : Z) (fails : Z → option bool)
  : option bool :=
  match n with
  | O => Some true
  | S n' =>
      b ← fails i;
      if b : bool then Some false else for_return_false n' (i + 1) fails
  end.

(* [[nodiscard]] inline bool is_valid_url(const std::string& url) *)
Definition is_valid_url (url : list ascii) : option bool :=
  if bool_decide (url = []) then Some false else
  c ← subscript url 0;
  if bool_decide (to_char (tolower (unsigned_char c)) ≠ "h"%char)
  then Some false else
  let sep_pos := find url (str "://") in
  if bool_decide (sep_pos = npos) then Some false else
  if bool_decide (sep_pos ≠ 4 ∧ sep_pos ≠ 5) then Some false else
  let base_scheme := str "http" in
  scheme ←
    for_return_false 3 1
      (λ i, c ← subscript url i;
            b ← subscript base_scheme i;
            Some (bool_decide (tolower (unsigned_char c) ≠ literal b)));
  if negb scheme then Some false else
  s ← (if bool_decide (sep_pos = 5)
       then c ← subscript url 4;
            Some (bool_decide (tolower (unsigned_char c) ≠ literal "s"))
       else Some false);
  if s : bool then Some false else
  (* sep_pos is 4 or 5 here: sep_pos + 3 does not wrap *)
  if bool_decide (Z.of_nat (length url) ≤ sep_pos + 3) then Some false else
  for_return_false (Z.to_nat (Z.of_nat (length url) - (sep_pos + 3)))
    (sep_pos + 3)
    (λ i, ch ← subscript url i;
          let c := unsigned_char ch in
          if bool_decide (c = literal ";" ∨ c = literal "|" ∨
                          c = literal "`" ∨ c = literal "$")
          then Some true
          else if negb (isgraph c) then Some true
          else Some false).

(* [[nodiscard]] inline bool iequal(const unsigned char c1, const unsigned char c2) *)
Definition iequal (c1 c2 : ascii) : bool :=
  bool_decide (tolower (unsigned_char c1) = tolower (unsigned_char c2)).

(* [[nodiscard]] inline bool iequal_str(const std::string_view str1,
                                       const std::string_view str2) *)
Definition iequal_str (str1 str2 : list ascii) : option bool :=
  if bool_decide (length str1 ≠ length str2) then Some false else
  equal iequal str1 str2.

(* [[nodiscard]] inline bool icontains(const std::string_view text,
                                      const std::string_view target) *)
Definition icontains (text target : list ascii) : bool :=
  let it := search iequal text target in
  bool_decide (it ≠ length text).
End utils.

(** Specification-side vocabulary for the string helpers. *)
Module utils_spec.
Import cxx.

(** A character folded to lower case, as the helpers compare it. *)
Definition lower (c : ascii) : Z := tolower (unsigned_char c).

(** The characters [is_valid_url] lets through after the separator: graphic
    ASCII, codes 33 to 126 (the space, code 32, is not among them), but for
    four signs. *)
Definition url_char (c : ascii) : Prop :=
  33 ≤ unsigned_char c ≤ 126 ∧
  c ≠ ";"%char ∧ c ≠ "|"%char ∧ c ≠ "`"%char ∧ c ≠ "$"%char.

(** [scheme "://" rest] with an http or https scheme in any letter case and a
    non-empty remainder of permitted characters. *)
Definition http_url (url : list ascii) : Prop :=
  ∃ scheme rest,
    url = scheme ++ str "://" ++ rest ∧
    (lower <$> scheme = lower <$> str "http" ∨
     lower <$> scheme = lower <$> str "https") ∧
    rest ≠ [] ∧ Forall url_char rest.
End utils_spec.

(** ** Running the primitives *)

Ltac unfold_M :=
  unfold mbind, M_bind, bind, mret, M_ret, ret, undefined in *.

Section primitives.
Context `{std : StdRandom} {T : Type}.
Implicit Types (w : world T) (s : ref) (l : list T).

Lemma deref_run w s l :
  objects w !! s = Some l → deref s w = Some (l, w).
Proof. unfold deref. by intros ->. Qed.

Lemma deref_dangling {A} w s (k : list T → M T A) :
  objects w !! s = None → bind (deref s) k w = None.
Proof. unfold bind, deref. by intros ->. Qed.

Lemma empty_dangling w s : objects w !! s = None → empty s w = None.
Proof. apply deref_dangling. Qed.

Lemma empty_run w s l :
  objects w !! s = Some l → empty s w = Some (bool_decide (l = []), w).
Proof. intros Hs. unfold empty, bind. by rewrite (deref_run _ _ _ Hs). Qed.

Lemma size_run w s l :
  objects w !! s = Some l → size s w = Some (Z.of_nat (length l), w).
Proof. intros Hs. unfold size, bind. by rewrite (deref_run _ _ _ Hs). Qed.

Lemma subscript_run w s l i x :
  objects w !! s = Some l → 0 ≤ i → l !! Z.to_nat i = Some x →
  subscript s i w = Some (x, w).
Proof.
  intros Hs Hi Hx. unfold subscript, bind. rewrite (deref_run _ _ _ Hs).
  apply lookup_lt_Some in Hx as Hlt.
  rewrite bool_decide_eq_true_2 by lia. by rewrite Hx.
Qed.

Lemma subscript_inv w s i x w' :
  subscript s i w = Some (x, w') →
  w' = w ∧ ∃ l, objects w !! s = Some l ∧ 0 ≤ i ∧ l !! Z.to_nat i = Some x.
Proof.
  unfold subscript, bind, deref.
  destruct (objects w !! s) as [l|] eqn:Hs; [|done].
  case_bool_decide as Hi; [|done].
  destruct (l !! Z.to_nat i) as [y|] eqn:Hy; [|done].
  unfold ret. intros [= -> ->]. split; [done|]. exists l. intuition lia.
Qed.

Lemma array_assign_run w (a : list T) i x :
  0 ≤ i < Z.of_nat (length a) →
  array_assign a i x w = Some (<[Z.to_nat i := x]> a, w).
Proof. intros Hi. unfold array_assign. by rewrite bool_decide_eq_true_2. Qed.

(** A lookup at an index inside the sequence succeeds. *)
Lemma lookup_in_range l i :
  0 ≤ i < Z.of_nat (length l) → ∃ x, l !! Z.to_nat i = Some x.
Proof.
  intros Hi. apply lookup_lt_is_Some_2. lia.
Qed.

(** [size() - 1] of a non-empty sequence: the subtraction may only wrap
    downwards, so the range it closes stays inside the sequence. *)
Lemma size_sub_1_bounds l :
  l ≠ [] →
  0 ≤ size_t_sub (Z.of_nat (length l)) 1 ≤ Z.of_nat (length l) - 1.
Proof.
  intros Hl. destruct l as [|x l]; [done|].
  unfold size_t_sub, size_t_modulus, size_t_bits. simpl length.
  split.
  - apply Z.mod_pos_bound. lia.
  - apply Z.mod_le; lia.
Qed.

Lemma size_sub_1_exact l :
  l ≠ [] → Z.of_nat (length l) ≤ size_t_modulus →
  size_t_sub (Z.of_nat (length l)) 1 = Z.of_nat (length l) - 1.
Proof.
  intros Hl Hmax. destruct l as [|x l]; [done|].
  unfold size_t_sub. simpl length in *. apply Z.mod_small. lia.
Qed.



Lemma picked_exists (S : list T) js :
  in_bounds S js → ∃ r, picked S js r.
Proof.
  induction 1 as [|j js Hj _ [r IH]].
  - exists []. constructor.
  - destruct (lookup_in_range S j Hj) as [x Hx].
    exists (x :: r). constructor; [|done]. split; [lia|done].
Qed.

End primitives.

(** ** The sequence of draws *)

Section draws.
Context `{std : StdRandom} {E : Type}.
Variable call :
  uniform_int_distribution → E → Z * uniform_int_distribution * E.

Lemma draws_S n d e :
  draws call (S n) d e =
    ((call d e).1.1 :: (draws call n (call d e).1.2 (call d e).2).1.1,
     (draws call n (call d e).1.2 (call d e).2).1.2,
     (draws call n (call d e).1.2 (call d e).2).2).
Proof.
  simpl. destruct (call d e) as [[i d'] e']. simpl.
  by destruct (draws call n d' e') as [[js d''] e''].
Qed.


Hypothesis call_param : ∀ d e,
  uniform_int_distribution_param (call d e).1.2
  = uniform_int_distribution_param d.
Hypothesis call_range : ∀ d e a b,
  uniform_int_distribution_param d = (a, b) → a ≤ b →
  a ≤ (call d e).1.1 ≤ b.

Lemma draws_range n d e a b :
  uniform_int_distribution_param d = (a, b) → a ≤ b →
  Forall (λ i, a ≤ i ≤ b) (draws call n d e).1.1.
Proof.
  revert d e. induction n as [|n IH]; intros d e Hd Hab.
  - constructor.
  - rewrite draws_S. simpl. constructor.
    + by apply call_range.
    + apply IH; [|done]. by rewrite call_param.
Qed.
End draws.

(** ** The two loops, over either engine *)

Section loops.
Context `{std : StdRandom} {T : Type} {E : Type}.
Variable call :
  uniform_int_distribution → E → Z * uniform_int_distribution * E.
(** [distribution(engine)] as the class under study runs it, and the thread
    state with its engine at a given value. *)
Variable dcall : uniform_int_distribution → M T (Z * uniform_int_distribution).
Variable at_ : E → world T.
Variables (s : ref) (S : list T).

Hypothesis at_objects : ∀ e, objects (at_ e) !! s = Some S.
Hypothesis dcall_run : ∀ d e,
  dcall d (at_ e) = Some ((call d e).1, at_ (call d e).2).

(** [for (...) ret_vec.push_back(vec[distribution(engine)])] *)
Lemma push_back_loop_run n : ∀ i acc d e,
  in_bounds S (draws call n d e).1.1 →
  ∃ xs, picked S (draws call n d e).1.1 xs ∧
    for_range n i
      (λ _ '(ret_vec, distribution),
         '(k, distribution) ← dcall distribution;
         x ← subscript s k;
         mret (ret_vec ++ [x], distribution))
      (acc, d) (at_ e)
    = Some ((acc ++ xs, (draws call n d e).1.2), at_ (draws call n d e).2).
Proof.
  induction n as [|n IH]; intros i acc d e Hin.
  - exists []. split; [constructor|]. simpl. by rewrite app_nil_r.
  - rewrite draws_S in *. simpl in Hin.
    apply Forall_cons in Hin as [Hk Hin].
    destruct (lookup_in_range S _ Hk) as [x Hx].
    destruct (IH (i + 1) (acc ++ [x]) (call d e).1.2 (call d e).2 Hin)
      as (xs & Hxs & Hrun).
    exists (x :: xs). split.
    { constructor; [|done]. split; [lia|done]. }
    simpl. unfold_M. rewrite dcall_run.
    destruct (call d e) as [[k d'] e'] eqn:Hc. simpl in *.
    rewrite (subscript_run _ _ _ _ _ (at_objects e') (proj1 Hk) Hx).
    rewrite Hrun. by rewrite <- app_assoc.
Qed.

(** [for (...) ret_arr[i] = arr[distribution(engine)]]: slots [i .. i+n-1]
    of the local array receive the picks, the others keep their value. *)
Lemma assign_loop_run n : ∀ i ret_arr d e,
  0 ≤ i → (Z.to_nat i + n ≤ length ret_arr)%nat →
  in_bounds S (draws call n d e).1.1 →
  ∃ xs, picked S (draws call n d e).1.1 xs ∧
    for_range n i
      (λ i '(ret_arr, distribution),
         '(k, distribution) ← dcall distribution;
         x ← subscript s k;
         ret_arr ← array_assign ret_arr i x;
         mret (ret_arr, distribution))
      (ret_arr, d) (at_ e)
    = Some ((take (Z.to_nat i) ret_arr ++ xs
               ++ drop (Z.to_nat i + n) ret_arr,
             (draws call n d e).1.2),
            at_ (draws call n d e).2).
Proof.
  induction n as [|n IH]; intros i ret_arr d e Hi Hlen Hin.
  - exists []. split; [constructor|]. simpl.
    by rewrite Nat.add_0_r, take_drop.
  - rewrite draws_S in *. simpl in Hin.
    apply Forall_cons in Hin as [Hk Hin].
    destruct (lookup_in_range S _ Hk) as [x Hx].
    set (ret_arr' := <[Z.to_nat i := x]> ret_arr).
    destruct (IH (i + 1) ret_arr' (call d e).1.2 (call d e).2)
      as (xs & Hxs & Hrun); [lia| |done|].
    { unfold ret_arr'. rewrite length_insert. lia. }
    exists (x :: xs). split.
    { constructor; [|done]. split; [lia|done]. }
    simpl. unfold_M. rewrite dcall_run.
    destruct (call d e) as [[k d'] e'] eqn:Hc. simpl in *.
    rewrite (subscript_run _ _ _ _ _ (at_objects e') (proj1 Hk) Hx).
    rewrite array_assign_run by lia. fold ret_arr'. rewrite Hrun.
    do 3 f_equal.
    replace (Z.to_nat (i + 1)) with (Z.to_nat i + 1)%nat by lia.
    rewrite Nat.add_1_r.
    unfold ret_arr'.
    rewrite (take_S_r _ _ x) by (apply list_lookup_insert_eq; lia).
    rewrite take_insert_ge by lia.
    rewrite drop_insert_lt by lia.
    rewrite <- app_assoc. simpl. by rewrite Nat.add_succ_r.
Qed.
End loops.

(** ** Running the operations of random_prng *)

Section prng_runs.
Context `{std : StdRandom} {T : Type} `{!ValueInit T} `{!VectorLimits T}.
Implicit Types (w : world T) (S : list T).

Lemma impl_prng_engine_run w :
  random_prng._impl_prng_engine w = Some ((), prng_at w (prng_engine w)).
Proof.
  unfold random_prng._impl_prng_engine, prng_at, prng_engine,
    prng_seed_device.
  destruct (generator w); [done|].
  by destruct (random_device_call _).
Qed.

Lemma prng_distribution_call_run w d g :
  random_prng.distribution_call d (prng_at w g)
  = Some ((call_mt19937_64 d g).1, prng_at w (call_mt19937_64 d g).2).
Proof.
  unfold random_prng.distribution_call. simpl.
  by destruct (call_mt19937_64 d g) as [[i d'] g'].
Qed.

Lemma prng_random_vec_run w vec S :
  objects w !! vec = Some S → S ≠ [] →
  let c := call_mt19937_64 (index_distribution S) (prng_engine w) in
  0 ≤ c.1.1 < Z.of_nat (length S) →
  ∃ x, S !! Z.to_nat c.1.1 = Some x ∧
       random_prng.random_vec vec w = Some (x, prng_at w c.2).
Proof.
  intros Hs Hne c Hc. destruct (lookup_in_range S _ Hc) as [x Hx].
  exists x. split; [done|].
  unfold random_prng.random_vec. unfold_M.
  rewrite (empty_run _ _ _ Hs), bool_decide_eq_false_2 by done.
  rewrite (size_run _ _ _ Hs), impl_prng_engine_run.
  rewrite prng_distribution_call_run.
  fold (index_distribution S). fold c.
  destruct c as [[i d'] g'] eqn:Ec. simpl in *.
  apply (subscript_run _ _ S); [exact Hs|lia|done].
Qed.

Lemma prng_random_vec_n_throws w vec S count :
  objects w !! vec = Some S → S ≠ [] → count ≠ 0 → count ≠ 1 →
  max_size < count →
  random_prng.random_vec_n vec count w = Some (inl length_error, w).
Proof.
  intros Hs Hne Hc0 Hc1 Hmax.
  unfold random_prng.random_vec_n, reserve. unfold_M.
  rewrite (empty_run _ _ _ Hs), bool_decide_eq_false_2 by done.
  rewrite (bool_decide_eq_false_2 (count = 0)) by done.
  rewrite (bool_decide_eq_false_2 (count = 1)) by done.
  by rewrite (bool_decide_eq_true_2 (max_size < count)).
Qed.

Lemma prng_random_vec_n_run w vec S count :
  objects w !! vec = Some S → S ≠ [] → count ≠ 0 →
  count = 1 ∨ count ≤ max_size →
  let r := draws call_mt19937_64 (Z.to_nat count) (index_distribution S)
             (prng_engine w) in
  in_bounds S r.1.1 →
  ∃ xs, picked S r.1.1 xs ∧
        random_prng.random_vec_n vec count w
        = Some (inr xs, prng_at w r.2).
Proof.
  intros Hs Hne Hc0 Hmax r Hin.
  unfold random_prng.random_vec_n, reserve. unfold_M.
  rewrite (empty_run _ _ _ Hs), bool_decide_eq_false_2 by done.
  rewrite (bool_decide_eq_false_2 (count = 0)) by done.
  case_bool_decide as Hc1;
    [|rewrite (bool_decide_eq_false_2 (max_size < count)) by lia].
  - (* count == 1: the single pick is the first and only draw *)
    subst count. subst r. change (Z.to_nat 1) with 1%nat in *.
    rewrite draws_S in *. simpl in Hin |- *.
    apply Forall_cons in Hin as [Hk _].
    destruct (prng_random_vec_run w vec S Hs Hne Hk) as (x & Hx & Hrun).
    fold (@mbind _ (@M_bind std T)) in Hrun.
    exists [x]. split.
    { constructor; [|constructor]. split; [lia|done]. }
    unfold random_prng.random_vec in *. unfold_M. by rewrite Hrun.
  - rewrite (size_run _ _ _ Hs), impl_prng_engine_run.
    fold (index_distribution S). unfold for_loop.
    destruct (push_back_loop_run call_mt19937_64
                random_prng.distribution_call (prng_at w) vec S
                (λ _, Hs) (prng_distribution_call_run w)
                (Z.to_nat count) 0 [] (index_distribution S)
                (prng_engine w) Hin) as (xs & Hxs & Hrun).
    exists xs. split; [done|]. unfold_M. by rewrite Hrun.
Qed.

Lemma prng_random_arr_run w arr S :
  objects w !! arr = Some S → S ≠ [] →
  let c := call_mt19937_64 (index_distribution S) (prng_engine w) in
  0 ≤ c.1.1 < Z.of_nat (length S) →
  ∃ x, S !! Z.to_nat c.1.1 = Some x ∧
       random_prng.random_arr arr w = Some (x, prng_at w c.2).
Proof. apply prng_random_vec_run. Qed.

Lemma prng_random_arr_n_run w arr S Count :
  objects w !! arr = Some S → S ≠ [] → Count ≠ 0 →
  let r := draws call_mt19937_64 (Z.to_nat Count) (index_distribution S)
             (prng_engine w) in
  in_bounds S r.1.1 →
  ∃ xs, picked S r.1.1 xs ∧
        random_prng.random_arr_n Count arr w = Some (xs, prng_at w r.2).
Proof.
  intros Hs Hne Hc0 r Hin.
  unfold random_prng.random_arr_n. unfold_M.
  rewrite (empty_run _ _ _ Hs), bool_decide_eq_false_2 by done.
  rewrite (bool_decide_eq_false_2 (Count = 0)) by done.
  rewrite (size_run _ _ _ Hs), impl_prng_engine_run.
  fold (index_distribution S). unfold for_loop.
  destruct (assign_loop_run call_mt19937_64
              random_prng.distribution_call (prng_at w) arr S
              (λ _, Hs) (prng_distribution_call_run w)
              (Z.to_nat Count) 0
              (replicate (Z.to_nat Count) value_init)
              (index_distribution S) (prng_engine w))
    as (xs & Hxs & Hrun); [done| |done|].
  { rewrite length_replicate. lia. }
  exists xs. split; [done|]. unfold_M. rewrite Hrun.
  rewrite drop_ge by (rewrite length_replicate; lia).
  change (Z.to_nat 0) with 0%nat. by rewrite take_0, app_nil_r.
Qed.
End prng_runs.

(** ** Running the operations of random_trng *)

Section trng_runs.
Context `{std : StdRandom} {T : Type} `{!ValueInit T} `{!VectorLimits T}.
Implicit Types (w : world T) (S : list T).

Lemma impl_trng_engine_run w :
  random_trng._impl_trng_engine w = Some ((), trng_at w (trng_engine w)).
Proof.
  done.
Qed.

Lemma trng_distribution_call_run w d g :
  random_trng.distribution_call d (trng_at w g)
  = Some ((call_random_device d g).1, trng_at w (call_random_device d g).2).
Proof.
  unfold random_trng.distribution_call. simpl.
  by destruct (call_random_device d g) as [[i d'] g'].
Qed.

Lemma trng_random_vec_run w vec S :
  objects w !! vec = Some S → S ≠ [] →
  let c := call_random_device (index_distribution S) (trng_engine w) in
  0 ≤ c.1.1 < Z.of_nat (length S) →
  ∃ x, S !! Z.to_nat c.1.1 = Some x ∧
       random_trng.random_vec vec w = Some (x, trng_at w c.2).
Proof.
  intros Hs Hne c Hc. destruct (lookup_in_range S _ Hc) as [x Hx].
  exists x. split; [done|].
  unfold random_trng.random_vec. unfold_M.
  rewrite (empty_run _ _ _ Hs), bool_decide_eq_false_2 by done.
  rewrite (size_run _ _ _ Hs), impl_trng_engine_run.
  rewrite trng_distribution_call_run.
  fold (index_distribution S). fold c.
  destruct c as [[i d'] g'] eqn:Ec. simpl in *.
  apply (subscript_run _ _ S); [exact Hs|lia|done].
Qed.

Lemma trng_random_vec_n_throws w vec S count :
  objects w !! vec = Some S → S ≠ [] → count ≠ 0 → count ≠ 1 →
  max_size < count →
  random_trng.random_vec_n vec count w = Some (inl length_error, w).
Proof.
  intros Hs Hne Hc0 Hc1 Hmax.
  unfold random_trng.random_vec_n, reserve. unfold_M.
  rewrite (empty_run _ _ _ Hs), bool_decide_eq_false_2 by done.
  rewrite (bool_decide_eq_false_2 (count = 0)) by done.
  rewrite (bool_decide_eq_false_2 (count = 1)) by done.
  by rewrite (bool_decide_eq_true_2 (max_size < count)).
Qed.

Lemma trng_random_vec_n_run w vec S count :
  objects w !! vec = Some S → S ≠ [] → count ≠ 0 →
  count = 1 ∨ count ≤ max_size →
  let r := draws call_random_device (Z.to_nat count) (index_distribution S)
             (trng_engine w) in
  in_bounds S r.1.1 →
  ∃ xs, picked S r.1.1 xs ∧
        random_trng.random_vec_n vec count w
        = Some (inr xs, trng_at w r.2).
Proof.
  intros Hs Hne Hc0 Hmax r Hin.
  unfold random_trng.random_vec_n, reserve. unfold_M.
  rewrite (empty_run _ _ _ Hs), bool_decide_eq_false_2 by done.
  rewrite (bool_decide_eq_false_2 (count = 0)) by done.
  case_bool_decide as Hc1;
    [|rewrite (bool_decide_eq_false_2 (max_size < count)) by lia].
  - (* count == 1: the single pick is the first and only draw *)
    subst count. subst r. change (Z.to_nat 1) with 1%nat in *.
    rewrite draws_S in *. simpl in Hin |- *.
    apply Forall_cons in Hin as [Hk _].
    destruct (trng_random_vec_run w vec S Hs Hne Hk) as (x & Hx & Hrun).
    fold (@mbind _ (@M_bind std T)) in Hrun.
    exists [x]. split.
    { constructor; [|constructor]. split; [lia|done]. }
    unfold random_trng.random_vec in *. unfold_M. by rewrite Hrun.
  - rewrite (size_run _ _ _ Hs), impl_trng_engine_run.
    fold (index_distribution S). unfold for_loop.
    destruct (push_back_loop_run call_random_device
                random_trng.distribution_call (trng_at w) vec S
                (λ _, Hs) (trng_distribution_call_run w)
                (Z.to_nat count) 0 [] (index_distribution S)
                (trng_engine w) Hin) as (xs & Hxs & Hrun).
    exists xs. split; [done|]. unfold_M. by rewrite Hrun.
Qed.

Lemma trng_random_arr_run w arr S :
  objects w !! arr = Some S → S ≠ [] →
  let c := call_random_device (index_distribution S) (trng_engine w) in
  0 ≤ c.1.1 < Z.of_nat (length S) →
  ∃ x, S !! Z.to_nat c.1.1 = Some x ∧
       random_trng.random_arr arr w = Some (x, trng_at w c.2).
Proof. apply trng_random_vec_run. Qed.

Lemma trng_random_arr_n_run w arr S Count :
  objects w !! arr = Some S → S ≠ [] → Count ≠ 0 →
  let r := draws call_random_device (Z.to_nat Count) (index_distribution S)
             (trng_engine w) in
  in_bounds S r.1.1 →
  ∃ xs, picked S r.1.1 xs ∧
        random_trng.random_arr_n Count arr w = Some (xs, trng_at w r.2).
Proof.
  intros Hs Hne Hc0 r Hin.
  unfold random_trng.random_arr_n. unfold_M.
  rewrite (empty_run _ _ _ Hs), bool_decide_eq_false_2 by done.
  rewrite (bool_decide_eq_false_2 (Count = 0)) by done.
  rewrite (size_run _ _ _ Hs), impl_trng_engine_run.
  fold (index_distribution S). unfold for_loop.
  destruct (assign_loop_run call_random_device
              random_trng.distribution_call (trng_at w) arr S
              (λ _, Hs) (trng_distribution_call_run w)
              (Z.to_nat Count) 0
              (replicate (Z.to_nat Count) value_init)
              (index_distribution S) (trng_engine w))
    as (xs & Hxs & Hrun); [done| |done|].
  { rewrite length_replicate. lia. }
  exists xs. split; [done|]. unfold_M. rewrite Hrun.
  rewrite drop_ge by (rewrite length_replicate; lia).
  change (Z.to_nat 0) with 0%nat. by rewrite take_0, app_nil_r.
Qed.
End trng_runs.

(** ** Indices stay inside the sequence *)

Section bounds.
Context `{std : StdRandom} {T : Type}.
Hypothesis contract : StdRandomContract.
Implicit Types (S : list T).

Lemma index_distribution_param S :
  uniform_int_distribution_param (index_distribution S)
  = (0, size_t_sub (Z.of_nat (length S)) 1).
Proof. apply (param_ctor contract). Qed.

Lemma in_bounds_of_range S js :
  S ≠ [] →
  Forall (λ i, 0 ≤ i ≤ size_t_sub (Z.of_nat (length S)) 1) js →
  in_bounds S js.
Proof.
  intros Hne HF. pose proof (size_sub_1_bounds S Hne).
  eapply Forall_impl; [exact HF|]. intros i Hi. simpl in *. lia.
Qed.

Lemma prng_draws_in_bounds S n g :
  S ≠ [] →
  in_bounds S (draws call_mt19937_64 n (index_distribution S) g).1.1.
Proof.
  intros Hne. apply in_bounds_of_range; [done|].
  apply draws_range.
  - apply (param_call_mt19937_64 contract).
  - apply (range_call_mt19937_64 contract).
  - apply index_distribution_param.
  - by apply size_sub_1_bounds.
Qed.

Lemma trng_draws_in_bounds S n r :
  S ≠ [] →
  in_bounds S (draws call_random_device n (index_distribution S) r).1.1.
Proof.
  intros Hne. apply in_bounds_of_range; [done|].
  apply draws_range.
  - apply (param_call_random_device contract).
  - apply (range_call_random_device contract).
  - apply index_distribution_param.
  - by apply size_sub_1_bounds.
Qed.

Lemma prng_index_in_bounds S g :
  S ≠ [] →
  0 ≤ (call_mt19937_64 (index_distribution S) g).1.1
    ≤ Z.of_nat (length S) - 1.
Proof.
  intros Hne. pose proof (size_sub_1_bounds S Hne).
  pose proof (range_call_mt19937_64 contract _ g _ _
                (index_distribution_param S)). lia.
Qed.

Lemma trng_index_in_bounds S r :
  S ≠ [] →
  0 ≤ (call_random_device (index_distribution S) r).1.1
    ≤ Z.of_nat (length S) - 1.
Proof.
  intros Hne. pose proof (size_sub_1_bounds S Hne).
  pose proof (range_call_random_device contract _ r _ _
                (index_distribution_param S)). lia.
Qed.
End bounds.

(** ** The executable instance meets the contract *)

Lemma toy_contract : @StdRandomContract toy.std.
Proof.
  split; try done.
  - intros [a' b'] g a b [= -> ->] Hab. simpl.
    pose proof (Z.mod_pos_bound (toy.lcg g / 2 ^ 33) (b - a + 1)). lia.
  - intros [a' b'] g a b [= -> ->] Hab. simpl.
    pose proof (Z.mod_pos_bound (toy.lcg g / 2 ^ 33) (b - a + 1)). lia.
Qed.

Lemma toy_memoryless : @memoryless toy.std Z (@call_mt19937_64 toy.std).
Proof. intros d d' e Hd. simpl in Hd. by subst d'. Qed.

Lemma toy_same_stream : @same_stream toy.std eq.
Proof. intros d g r ->. done. Qed.

Lemma prng_random_vec_returns `{std : StdRandom} {T : Type} `{!ValueInit T}
    (contract : StdRandomContract) (w : world T) (s : ref) (S : list T) :
  objects w !! s = Some S → S ≠ [] →
  ∃ x w', random_prng.random_vec s w = Some (x, w').
Proof.
  intros Hs Hne.
  pose proof (prng_index_in_bounds contract S (prng_engine w) Hne) as Hc.
  destruct (prng_random_vec_run w s S Hs Hne) as (x & _ & Hrun); [lia|].
  by exists x, (prng_at w
    (call_mt19937_64 (index_distribution S) (prng_engine w)).2).
Qed.

Lemma trng_random_vec_returns `{std : StdRandom} {T : Type} `{!ValueInit T}
    (contract : StdRandomContract) (w : world T) (s : ref) (S : list T) :
  objects w !! s = Some S → S ≠ [] →
  ∃ x w', random_trng.random_vec s w = Some (x, w').
Proof.
  intros Hs Hne.
  pose proof (trng_index_in_bounds contract S (trng_engine w) Hne) as Hc.
  destruct (trng_random_vec_run w s S Hs Hne) as (x & _ & Hrun); [lia|].
  by exists x, (trng_at w
    (call_random_device (index_distribution S) (trng_engine w)).2).
Qed.

(** ** The sampling contract *)

Import toy.

(** The embedding run on the executable instance. *)

Example size_t_sub_wraps : size_t_sub 0 1 = 18446744073709551615.
Proof. reflexivity. Qed.

Example toy_random_vec :
  random_prng.random_vec 1%positive (toy.fresh [10; 20; 30])
  = Some (30, World {[ 1%positive := [10; 20; 30] ]}
                (Some 6960098705836178992) (Some 5620423986568220816) None).
Proof. reflexivity. Qed.

Example toy_random_vec_n :
  random_prng.random_vec_n 1%positive 5 (toy.fresh [10; 20; 30])
  = Some (inr [30; 10; 20; 10; 30],
          World {[ 1%positive := [10; 20; 30] ]}
            (Some 6960098705836178992) (Some 15480536559245349700) None).
Proof. reflexivity. Qed.

Example toy_random_vec_n_too_long :
  random_prng.random_vec_n 1%positive 1152921504606846976
    (toy.fresh [10; 20; 30])
  = Some (inl length_error, toy.fresh [10; 20; 30]).
Proof. reflexivity. Qed.

Example toy_trng_random_arr_n :
  random_trng.random_arr_n 4 1%positive (toy.warm [10; 20; 30])
  = Some ([20; 30; 20; 10],
          World {[ 1%positive := [10; 20; 30] ]}
            (Some 11) (Some 42) (Some 11628791489956661374)).
Proof. reflexivity. Qed.

Example toy_random_arr_n_empty :
  random_prng.random_arr_n 4 1%positive (toy.fresh [])
  = Some ([0; 0; 0; 0], toy.fresh []).
Proof. reflexivity. Qed.

Example toy_dangling_reference :
  random_prng.random_vec 2%positive (toy.fresh [10; 20; 30]) = None.
Proof. reflexivity. Qed.

(** C2: for a non-empty sequence [S], the single pick of either class, on a
    vector or on an array, returns an element of [S]: the index the
    distribution yields lies in [0, length - 1], so the subscript is inside
    the sequence, and the call leaves the engine where that draw left it. *)
Theorem pick_one_member `{std : StdRandom} {T : Type} `{!ValueInit T}
    (contract : StdRandomContract) (w : world T) (s : ref) (S : list T) :
  objects w !! s = Some S → S ≠ [] →
  (let c := call_mt19937_64 (index_distribution S) (prng_engine w) in
   ∃ x, 0 ≤ c.1.1 ≤ Z.of_nat (length S) - 1 ∧
        S !! Z.to_nat c.1.1 = Some x ∧ x ∈ S ∧
        random_prng.random_vec s w = Some (x, prng_at w c.2) ∧
        random_prng.random_arr s w = Some (x, prng_at w c.2)) ∧
  (let c := call_random_device (index_distribution S) (trng_engine w) in
   ∃ x, 0 ≤ c.1.1 ≤ Z.of_nat (length S) - 1 ∧
        S !! Z.to_nat c.1.1 = Some x ∧ x ∈ S ∧
        random_trng.random_vec s w = Some (x, trng_at w c.2) ∧
        random_trng.random_arr s w = Some (x, trng_at w c.2)).
Proof.
  intros Hs Hne. split; intros c.
  - pose proof (prng_index_in_bounds contract S (prng_engine w) Hne) as Hc.
    fold c in Hc.
    destruct (prng_random_vec_run w s S Hs Hne) as (x & Hx & Hrun);
      [fold c; lia|].
    exists x. repeat split; try done; try lia.
    by eapply list_elem_of_lookup_2.
  - pose proof (trng_index_in_bounds contract S (trng_engine w) Hne) as Hc.
    fold c in Hc.
    destruct (trng_random_vec_run w s S Hs Hne) as (x & Hx & Hrun);
      [fold c; lia|].
    exists x. repeat split; try done; try lia.
    by eapply list_elem_of_lookup_2.
Qed.

Lemma pick_one_member_witness :
  objects (toy.fresh [10; 20; 30]) !! 1%positive = Some [10; 20; 30] ∧
  [10; 20; 30] ≠ [] ∧
  ∃ x, x ∈ [10; 20; 30] ∧
       random_prng.random_vec 1%positive (toy.fresh [10; 20; 30])
       = Some (x, prng_at (toy.fresh [10; 20; 30]) 5620423986568220816).
Proof.
  split; [reflexivity|]. split; [discriminate|].
  destruct (pick_one_member toy_contract (toy.fresh [10; 20; 30]) 1%positive
              [10; 20; 30] eq_refl ltac:(discriminate))
    as [(x & _ & _ & Hin & Hrun & _) _].
  exists x. split; [exact Hin|exact Hrun].
Defined.




(** C3: on an empty vector the single pick returns the value-initialised
    element and the multi-draw overload returns an empty vector, for every
    count; on any vector a count of 0 gives an empty vector.  Each of these
    calls returns normally, and with the thread state as it found it. *)
Theorem empty_input_or_zero_count `{std : StdRandom} {T : Type}
    `{!ValueInit T} `{!VectorLimits T} (w : world T) (vec : ref)
    (S : list T) :
  objects w !! vec = Some S →
  (S = [] →
   random_prng.random_vec vec w = Some (value_init, w) ∧
   random_trng.random_vec vec w = Some (value_init, w) ∧
   ∀ c, random_prng.random_vec_n vec c w = Some (inr [], w) ∧
        random_trng.random_vec_n vec c w = Some (inr [], w)) ∧
  random_prng.random_vec_n vec 0 w = Some (inr [], w) ∧
  random_trng.random_vec_n vec 0 w = Some (inr [], w).
Proof.
  intros Hs. split; [intros ->; repeat split|split].
  - unfold random_prng.random_vec. unfold_M. by rewrite (empty_run _ _ _ Hs).
  - unfold random_trng.random_vec. unfold_M. by rewrite (empty_run _ _ _ Hs).
  - unfold random_prng.random_vec_n. unfold_M.
    by rewrite (empty_run _ _ _ Hs).
  - unfold random_trng.random_vec_n. unfold_M.
    by rewrite (empty_run _ _ _ Hs).
  - unfold random_prng.random_vec_n. unfold_M.
    rewrite (empty_run _ _ _ Hs). by case_bool_decide.
  - unfold random_trng.random_vec_n. unfold_M.
    rewrite (empty_run _ _ _ Hs). by case_bool_decide.
Qed.

Lemma empty_input_or_zero_count_witness :
  objects (toy.fresh []) !! 1%positive = Some [] ∧
  random_prng.random_vec 1%positive (toy.fresh []) = Some (0, toy.fresh []) ∧
  random_trng.random_vec_n 1%positive 3 (toy.fresh [])
  = Some (inr [], toy.fresh []) ∧
  random_prng.random_vec_n 1%positive 0 (toy.fresh [])
  = Some (inr [], toy.fresh []).
Proof.
  split; [reflexivity|].
  destruct (empty_input_or_zero_count (toy.fresh []) 1%positive [] eq_refl)
    as [Hempty [Hzero _]].
  destruct (Hempty eq_refl) as (Hone & _ & Hn).
  split; [exact Hone|]. split; [exact (proj2 (Hn 3))|exact Hzero].
Defined.

(** C4: on a non-empty vector a count of 1 defers to the single pick: from
    the same thread state the single pick returns some [x] and the multi-draw
    overload returns the one-element vector [[x]], both leaving the same
    state behind; in both classes. *)
Theorem count_one_defers `{std : StdRandom} {T : Type} `{!ValueInit T}
    `{!VectorLimits T} (contract : StdRandomContract) (w : world T)
    (vec : ref) (S : list T) :
  objects w !! vec = Some S → S ≠ [] →
  (∃ x w', random_prng.random_vec vec w = Some (x, w') ∧
           random_prng.random_vec_n vec 1 w = Some (inr [x], w')) ∧
  (∃ x w', random_trng.random_vec vec w = Some (x, w') ∧
           random_trng.random_vec_n vec 1 w = Some (inr [x], w')).
Proof.
  intros Hs Hne.
  destruct (prng_random_vec_returns contract w vec S Hs Hne)
    as (x & w' & Hrun).
  destruct (trng_random_vec_returns contract w vec S Hs Hne)
    as (y & w'' & Hrun').
  split.
  - exists x, w'. split; [done|].
    unfold random_prng.random_vec_n. unfold_M.
    rewrite (empty_run _ _ _ Hs), bool_decide_eq_false_2 by done.
    rewrite (bool_decide_eq_false_2 (1 = 0)) by done.
    rewrite (bool_decide_eq_true_2 (1 = 1)) by done.
    by rewrite Hrun.
  - exists y, w''. split; [done|].
    unfold random_trng.random_vec_n. unfold_M.
    rewrite (empty_run _ _ _ Hs), bool_decide_eq_false_2 by done.
    rewrite (bool_decide_eq_false_2 (1 = 0)) by done.
    rewrite (bool_decide_eq_true_2 (1 = 1)) by done.
    by rewrite Hrun'.
Qed.

Lemma count_one_defers_witness :
  objects (toy.warm [10; 20; 30]) !! 1%positive = Some [10; 20; 30] ∧
  [10; 20; 30] ≠ [] ∧
  ∃ x w', random_trng.random_vec 1%positive (toy.warm [10; 20; 30])
          = Some (x, w') ∧
          random_trng.random_vec_n 1%positive 1 (toy.warm [10; 20; 30])
          = Some (inr [x], w').
Proof.
  split; [reflexivity|]. split; [discriminate|].
  exact (proj2 (count_one_defers toy_contract (toy.warm [10; 20; 30])
                  1%positive [10; 20; 30] eq_refl ltac:(discriminate))).
Defined.

(** C7: on an array of length 0 the single pick and the [Count]-pick of
    either class return before the engine accessor or the distribution is
    reached: the value-initialised element, respectively the value-initialised
    [std::array<T, Count>], comes back with the thread state unchanged, so no
    static is built and no engine is advanced. *)
Theorem empty_array_no_draw `{std : StdRandom} {T : Type} `{!ValueInit T}
    (w : world T) (arr : ref) :
  objects w !! arr = Some [] →
  random_prng.random_arr arr w = Some (value_init, w) ∧
  random_trng.random_arr arr w = Some (value_init, w) ∧
  ∀ Count,
    random_prng.random_arr_n Count arr w
    = Some (replicate (Z.to_nat Count) value_init, w) ∧
    random_trng.random_arr_n Count arr w
    = Some (replicate (Z.to_nat Count) value_init, w).
Proof.
  intros Hs. repeat split.
  - unfold random_prng.random_arr. unfold_M. by rewrite (empty_run _ _ _ Hs).
  - unfold random_trng.random_arr. unfold_M. by rewrite (empty_run _ _ _ Hs).
  - unfold random_prng.random_arr_n. unfold_M.
    by rewrite (empty_run _ _ _ Hs).
  - unfold random_trng.random_arr_n. unfold_M.
    by rewrite (empty_run _ _ _ Hs).
Qed.

Lemma empty_array_no_draw_witness :
  objects (toy.fresh []) !! 1%positive = Some [] ∧
  random_prng.random_arr 1%positive (toy.fresh []) = Some (0, toy.fresh []) ∧
  random_trng.random_arr_n 2 1%positive (toy.fresh [])
  = Some ([0; 0], toy.fresh []).
Proof.
  split; [reflexivity|].
  destruct (empty_array_no_draw (toy.fresh []) 1%positive eq_refl)
    as (Hone & _ & Hn).
  split; [exact Hone|exact (proj2 (Hn 2))].
Defined.

(** C10: the [Count]-pick on an array of length 0, for [Count > 0], does not
    return a zero-length sequence: in both classes the result is the
    [std::array<T, Count>] of exactly [Count] elements, every one the
    value-initialised [T]. *)
Theorem empty_array_count_defaults `{std : StdRandom} {T : Type}
    `{!ValueInit T} (w : world T) (arr : ref) (Count : Z) :
  objects w !! arr = Some [] → 0 < Count →
  ∃ r, random_prng.random_arr_n Count arr w = Some (r, w) ∧
       random_trng.random_arr_n Count arr w = Some (r, w) ∧
       Z.of_nat (length r) = Count ∧ r ≠ [] ∧
       Forall (λ x, x = value_init) r.
Proof.
  intros Hs HC. exists (replicate (Z.to_nat Count) value_init).
  unfold random_prng.random_arr_n, random_trng.random_arr_n. unfold_M.
  rewrite (empty_run _ _ _ Hs). simpl. repeat split.
  - rewrite length_replicate. lia.
  - intros Hnil. apply (f_equal length) in Hnil.
    rewrite length_replicate in Hnil. simpl in Hnil. lia.
  - apply Forall_forall. intros x Hx.
    by apply elem_of_replicate in Hx as [-> _].
Qed.

Lemma empty_array_count_defaults_witness :
  objects (toy.fresh []) !! 1%positive = Some [] ∧ 0 < 3 ∧
  ∃ r, random_prng.random_arr_n 3 1%positive (toy.fresh [])
       = Some (r, toy.fresh []) ∧ Z.of_nat (length r) = 3.
Proof.
  split; [reflexivity|]. split; [lia|].
  destruct (empty_array_count_defaults (toy.fresh []) 1%positive 3 eq_refl
              ltac:(lia)) as (r & Hp & _ & Hlen & _).
  exists r. split; [exact Hp|exact Hlen].
Defined.

(** ** One distribution object per call, or one per element *)

Section reuse.
Context `{std : StdRandom} {T : Type} `{!ValueInit T}.
Hypothesis call_param : ∀ d g,
  uniform_int_distribution_param (call_mt19937_64 d g).1.2
  = uniform_int_distribution_param d.
Hypothesis call_memoryless : memoryless call_mt19937_64.
Variables (w : world T) (vec : ref) (S : list T).
Hypothesis vec_object : objects w !! vec = Some S.

Lemma reuse_recreate_loop n : ∀ i acc d g,
  uniform_int_distribution_param d
  = uniform_int_distribution_param (index_distribution S) →
  ('(ret_vec, _) ←
     for_range n i
       (λ _ '(ret_vec, distribution),
          '(k, distribution) ← random_prng.distribution_call distribution;
          x ← subscript vec k;
          mret (ret_vec ++ [x], distribution))
       (acc, d);
   mret ret_vec) (prng_at w g)
  = for_range n i
      (λ _ ret_vec,
         n ← size vec;
         let distribution :=
           uniform_int_distribution_ctor 0 (size_t_sub n 1) in
         '(k, _) ← random_prng.distribution_call distribution;
         x ← subscript vec k;
         mret (ret_vec ++ [x]))
      acc (prng_at w g).
Proof.
  induction n as [|n IH]; intros i acc d g Hd; [done|].
  specialize (IH (i + 1)). simpl. unfold_M.
  rewrite (size_run (prng_at w g) vec S vec_object).
  rewrite !prng_distribution_call_run.
  fold (index_distribution S).
  destruct (call_memoryless d (index_distribution S) g Hd) as [Hk Hg].
  pose proof (call_param d g) as Hd'.
  destruct (call_mt19937_64 d g) as [[k d'] g'].
  destruct (call_mt19937_64 (index_distribution S) g) as [[k0 d0] g0].
  simpl in *. subst k0 g0.
  destruct (subscript vec k (prng_at w g')) as [[x w']|] eqn:Hx; [|done].
  apply subscript_inv in Hx as [-> _].
  apply IH. congruence.
Qed.
End reuse.

(** C5: building the distribution object once per call and reusing it for
    every draw gives, from the same thread state, the same result and the
    same final state as rebuilding it for every element, provided a
    distribution object keeps its range across calls and has no behaviour
    beyond that range. *)
Theorem reuse_equals_recreate `{std : StdRandom} {T : Type} `{!ValueInit T}
    `{!VectorLimits T}
    (call_param : ∀ d g,
       uniform_int_distribution_param (call_mt19937_64 d g).1.2
       = uniform_int_distribution_param d)
    (call_memoryless : memoryless call_mt19937_64)
    (w : world T) (vec : ref) (count : Z) :
  random_prng.random_vec_n vec count w = recreate.random_vec_n vec count w.
Proof.
  unfold random_prng.random_vec_n, recreate.random_vec_n. unfold_M.
  destruct (objects w !! vec) as [S|] eqn:Hs.
  - rewrite (empty_run _ _ _ Hs).
    case_bool_decide; [done|]. case_bool_decide; [done|].
    case_bool_decide; [done|].
    destruct (reserve count) as [thrown|[]]; [done|].
    rewrite (size_run _ _ _ Hs), impl_prng_engine_run.
    fold (index_distribution S). unfold for_loop.
    pose proof (reuse_recreate_loop call_param call_memoryless w vec S Hs
                  (Z.to_nat count) 0 [] (index_distribution S)
                  (prng_engine w) eq_refl) as Hloop.
    unfold_M. rewrite <- Hloop.
    by destruct (for_range _ _ _ _ _) as [[[ret_vec d] w']|].
  - by rewrite !empty_dangling.
Qed.

Lemma reuse_equals_recreate_witness :
  random_prng.random_vec_n 1%positive 5 (toy.fresh [10; 20; 30])
  = recreate.random_vec_n 1%positive 5 (toy.fresh [10; 20; 30]) ∧
  recreate.random_vec_n 1%positive 5 (toy.fresh [10; 20; 30])
  = Some (inr [30; 10; 20; 10; 30],
          prng_at (toy.fresh [10; 20; 30]) 15480536559245349700).
Proof.
  split.
  - exact (reuse_equals_recreate (std := toy.std)
             (param_call_mt19937_64 toy_contract) toy_memoryless
             (toy.fresh [10; 20; 30]) 1%positive 5).
  - reflexivity.
Defined.

(** ** The two classes side by side *)

Section side_by_side.
Context `{std : StdRandom} {T : Type} `{!ValueInit T} `{!VectorLimits T}.
Variable sim : mt19937_64 → random_device → Prop.
Hypothesis stream : same_stream sim.
Variables (w1 w2 : world T).
Hypothesis same_objects : objects w1 = objects w2.

Lemma driven_alike_at g r :
  sim g r → driven_alike sim (prng_at w1 g) (trng_at w2 r).
Proof. intros Hgr. by split. Qed.

(** A subscript reads the caller's objects and nothing else. *)
Lemma subscript_side_by_side s i g r :
  match subscript s i (prng_at w1 g), subscript s i (trng_at w2 r) with
  | Some (x, v1), Some (y, v2) =>
      x = y ∧ v1 = prng_at w1 g ∧ v2 = trng_at w2 r
  | None, None => True
  | _, _ => False
  end.
Proof.
  unfold subscript, bind, deref. simpl. rewrite <- same_objects.
  destruct (objects w1 !! s) as [l|]; [|done].
  case_bool_decide; [|done].
  by destruct (l !! Z.to_nat i).
Qed.

Lemma push_back_loop_side_by_side s n : ∀ i acc d g r,
  sim g r →
  same_outcome sim
    (('(ret_vec, _) ←
        for_range n i
          (λ _ '(ret_vec, distribution),
             '(k, distribution) ← random_prng.distribution_call distribution;
             x ← subscript s k;
             mret (ret_vec ++ [x], distribution))
          (acc, d);
      mret ret_vec) (prng_at w1 g))
    (('(ret_vec, _) ←
        for_range n i
          (λ _ '(ret_vec, distribution),
             '(k, distribution) ← random_trng.distribution_call distribution;
             x ← subscript s k;
             mret (ret_vec ++ [x], distribution))
          (acc, d);
      mret ret_vec) (trng_at w2 r)).
Proof.
  induction n as [|n IH]; intros i acc d g r Hgr.
  - simpl. split; [done|]. by apply driven_alike_at.
  - specialize (IH (i + 1)). simpl. unfold_M.
    rewrite prng_distribution_call_run, trng_distribution_call_run.
    destruct (stream d g r Hgr) as [Hkd Hgr'].
    destruct (call_mt19937_64 d g) as [[k d'] g'].
    destruct (call_random_device d r) as [[k0 d0] r'].
    simpl in *. injection Hkd as <- <-.
    pose proof (subscript_side_by_side s k g' r') as Hsub.
    destruct (subscript s k (prng_at w1 g')) as [[x v1]|],
             (subscript s k (trng_at w2 r')) as [[y v2]|]; try done.
    destruct Hsub as (<- & -> & ->). by apply IH.
Qed.

Lemma assign_loop_side_by_side s n : ∀ i ret_arr d g r,
  sim g r →
  same_outcome sim
    (('(ret_arr, _) ←
        for_range n i
          (λ i '(ret_arr, distribution),
             '(k, distribution) ← random_prng.distribution_call distribution;
             x ← subscript s k;
             ret_arr ← array_assign ret_arr i x;
             mret (ret_arr, distribution))
          (ret_arr, d);
      mret ret_arr) (prng_at w1 g))
    (('(ret_arr, _) ←
        for_range n i
          (λ i '(ret_arr, distribution),
             '(k, distribution) ← random_trng.distribution_call distribution;
             x ← subscript s k;
             ret_arr ← array_assign ret_arr i x;
             mret (ret_arr, distribution))
          (ret_arr, d);
      mret ret_arr) (trng_at w2 r)).
Proof.
  induction n as [|n IH]; intros i ret_arr d g r Hgr.
  - simpl. split; [done|]. by apply driven_alike_at.
  - specialize (IH (i + 1)). simpl. unfold_M.
    rewrite prng_distribution_call_run, trng_distribution_call_run.
    destruct (stream d g r Hgr) as [Hkd Hgr'].
    destruct (call_mt19937_64 d g) as [[k d'] g'].
    destruct (call_random_device d r) as [[k0 d0] r'].
    simpl in *. injection Hkd as <- <-.
    pose proof (subscript_side_by_side s k g' r') as Hsub.
    destruct (subscript s k (prng_at w1 g')) as [[x v1]|],
             (subscript s k (trng_at w2 r')) as [[y v2]|]; try done.
    destruct Hsub as (<- & -> & ->).
    unfold array_assign. case_bool_decide; [|done]. by apply IH.
Qed.

Hypothesis alike : sim (prng_engine w1) (trng_engine w2).

Lemma random_vec_side_by_side s :
  same_outcome sim (random_prng.random_vec s w1) (random_trng.random_vec s w2).
Proof.
  unfold random_prng.random_vec, random_trng.random_vec. unfold_M.
  destruct (objects w1 !! s) as [S|] eqn:Hs;
    pose proof Hs as Hs'; rewrite same_objects in Hs';
    [|by rewrite !empty_dangling].
  rewrite (empty_run _ _ _ Hs), (empty_run _ _ _ Hs').
  case_bool_decide; [by split|].
  rewrite (size_run _ _ _ Hs), (size_run _ _ _ Hs').
  rewrite impl_prng_engine_run, impl_trng_engine_run.
  rewrite prng_distribution_call_run, trng_distribution_call_run.
  destruct (stream (uniform_int_distribution_ctor 0
              (size_t_sub (Z.of_nat (length S)) 1)) _ _ alike)
    as [Hkd Hgr'].
  destruct (call_mt19937_64 _ _) as [[k d'] g'].
  destruct (call_random_device _ _) as [[k0 d0] r'].
  simpl in *. injection Hkd as <- <-.
  pose proof (subscript_side_by_side s k g' r') as Hsub.
  destruct (subscript s k (prng_at w1 g')) as [[x v1]|],
           (subscript s k (trng_at w2 r')) as [[y v2]|]; try done.
  destruct Hsub as (<- & -> & ->). split; [done|]. by apply driven_alike_at.
Qed.

Lemma random_arr_side_by_side s :
  same_outcome sim (random_prng.random_arr s w1) (random_trng.random_arr s w2).
Proof. apply random_vec_side_by_side. Qed.

Lemma random_vec_n_side_by_side s count :
  same_outcome sim (random_prng.random_vec_n s count w1)
                   (random_trng.random_vec_n s count w2).
Proof.
  pose proof (random_vec_side_by_side s) as Hone.
  unfold random_prng.random_vec_n, random_trng.random_vec_n. unfold_M.
  destruct (objects w1 !! s) as [S|] eqn:Hs;
    pose proof Hs as Hs'; rewrite same_objects in Hs';
    [|by rewrite !empty_dangling].
  rewrite (empty_run _ _ _ Hs), (empty_run _ _ _ Hs').
  case_bool_decide; [by split|]. case_bool_decide; [by split|].
  case_bool_decide.
  - destruct (random_prng.random_vec s w1) as [[x v1]|],
             (random_trng.random_vec s w2) as [[y v2]|]; try done.
    destruct Hone as [-> ?]. by split.
  - destruct (reserve count) as [thrown|[]]; [by split|].
    rewrite (size_run _ _ _ Hs), (size_run _ _ _ Hs').
    rewrite impl_prng_engine_run, impl_trng_engine_run.
    pose proof (push_back_loop_side_by_side s (Z.to_nat count) 0 []
                  (uniform_int_distribution_ctor 0
                     (size_t_sub (Z.of_nat (length S)) 1))
                  _ _ alike) as Hloop.
    unfold for_loop. unfold_M. unfold same_outcome in *.
    repeat match goal with
           | |- context [for_range ?n ?i ?b ?a ?v] =>
               destruct (for_range n i b a v) as [[[? ?] ?]|]
           end; try done.
    destruct Hloop as [-> ?]. by split.
Qed.

Lemma random_arr_n_side_by_side s Count :
  same_outcome sim (random_prng.random_arr_n Count s w1)
                   (random_trng.random_arr_n Count s w2).
Proof.
  unfold random_prng.random_arr_n, random_trng.random_arr_n. unfold_M.
  destruct (objects w1 !! s) as [S|] eqn:Hs;
    pose proof Hs as Hs'; rewrite same_objects in Hs';
    [|by rewrite !empty_dangling].
  rewrite (empty_run _ _ _ Hs), (empty_run _ _ _ Hs').
  case_bool_decide; [by split|]. case_bool_decide; [by split|].
  rewrite (size_run _ _ _ Hs), (size_run _ _ _ Hs').
  rewrite impl_prng_engine_run, impl_trng_engine_run.
  apply (assign_loop_side_by_side s). exact alike.
Qed.
End side_by_side.

(** ** Nothing but reads through the reference *)

Section statics.
Context `{std : StdRandom} {T : Type}.
Implicit Types (v w : world T) (S : list T).

Lemma index_distribution_length S S2 :
  length S2 = length S → index_distribution S2 = index_distribution S.
Proof. unfold index_distribution. by intros ->. Qed.

Lemma same_length_nil S S2 : length S2 = length S → S = [] → S2 = [].
Proof. intros Hlen ->. by apply nil_length_inv. Qed.

Lemma same_length_not_nil S S2 : length S2 = length S → S ≠ [] → S2 ≠ [].
Proof. intros Hlen Hne ->. apply Hne. by apply nil_length_inv. Qed.

Lemma prng_statics v w :
  thread_statics v = thread_statics w →
  prng_engine v = prng_engine w ∧
  ∀ g, thread_statics (prng_at v g) = thread_statics (prng_at w g).
Proof.
  unfold thread_statics, prng_engine, prng_at, prng_seed_device.
  intros [= -> -> ->]. done.
Qed.

Lemma trng_statics v w :
  thread_statics v = thread_statics w →
  trng_engine v = trng_engine w ∧
  ∀ r, thread_statics (trng_at v r) = thread_statics (trng_at w r).
Proof.
  unfold thread_statics, trng_engine, trng_at.
  intros [= -> -> ->]. done.
Qed.
End statics.

Section prng_reads_only.
Context `{std : StdRandom} {T : Type} `{!ValueInit T} `{!VectorLimits T}.
Hypothesis contract : StdRandomContract.

Lemma prng_random_vec_reads_only :
  reads_only (T := T) random_prng.random_vec.
Proof.
  intros w s S Hs. destruct (decide (S = [])) as [HS|HS].
  - exists value_init, w.
    assert (∀ (v : world T) s2, objects v !! s2 = Some [] →
              random_prng.random_vec s2 v = Some (value_init, v)) as Hrun.
    { intros v s2 Hv. unfold random_prng.random_vec. unfold_M.
      by rewrite (empty_run _ _ _ Hv). }
    subst S. split; [by apply Hrun|]. split; [done|].
    intros v s2 S2 Hv Hlen Hst. apply nil_length_inv in Hlen as ->.
    exists value_init, v. by split; [apply Hrun|].
  - pose proof (prng_index_in_bounds contract S (prng_engine w) HS) as Hc.
    destruct (prng_random_vec_run w s S Hs HS) as (x & _ & Hrun); [lia|].
    eexists x, _. split; [exact Hrun|]. split; [done|].
    intros v s2 S2 Hv Hlen Hst.
    pose proof (same_length_not_nil S S2 Hlen HS) as HS2.
    pose proof (prng_index_in_bounds contract S2 (prng_engine v) HS2) as Hc2.
    destruct (prng_random_vec_run v s2 S2 Hv HS2) as (y & _ & Hrun2); [lia|].
    eexists y, _. split; [exact Hrun2|].
    destruct (prng_statics v w Hst) as [-> Hat].
    by rewrite (index_distribution_length S S2).
Qed.

Lemma prng_random_arr_reads_only :
  reads_only (T := T) random_prng.random_arr.
Proof. apply prng_random_vec_reads_only. Qed.

Lemma prng_random_vec_n_reads_only count :
  reads_only (T := T) (λ vec, random_prng.random_vec_n vec count).
Proof.
  intros w s S Hs.
  destruct (decide (S = [] ∨ count = 0)) as [HS|HS].
  - exists (inr []), w.
    assert (∀ (v : world T) s2 S2, objects v !! s2 = Some S2 →
              S2 = [] ∨ count = 0 →
              random_prng.random_vec_n s2 count v = Some (inr [], v))
      as Hrun.
    { intros v s2 S2 Hv Hor. unfold random_prng.random_vec_n. unfold_M.
      rewrite (empty_run _ _ _ Hv). case_bool_decide; [done|].
      case_bool_decide; [done|]. by destruct Hor. }
    split; [by eapply Hrun|]. split; [done|].
    intros v s2 S2 Hv Hlen Hst. exists (inr []), v. split; [|done].
    eapply Hrun; [done|]. destruct HS as [HS|HS]; [left|by right].
    by eapply same_length_nil.
  - apply Decidable.not_or in HS as [HS Hc].
    destruct (decide (count = 1 ∨ count ≤ max_size)) as [Hmax|Hmax].
    + destruct (prng_random_vec_n_run w s S count Hs HS Hc Hmax
                  (prng_draws_in_bounds contract S _ _ HS))
        as (xs & _ & Hrun).
      eexists (inr xs), _. split; [exact Hrun|]. split; [done|].
      intros v s2 S2 Hv Hlen Hst.
      pose proof (same_length_not_nil S S2 Hlen HS) as HS2.
      destruct (prng_random_vec_n_run v s2 S2 count Hv HS2 Hc Hmax
                  (prng_draws_in_bounds contract S2 _ _ HS2))
        as (ys & _ & Hrun2).
      eexists (inr ys), _. split; [exact Hrun2|].
      destruct (prng_statics v w Hst) as [-> Hat].
      by rewrite (index_distribution_length S S2).
    + (* reserve throws before anything is read or drawn *)
      apply Decidable.not_or in Hmax as [Hc1 Hmax].
      exists (inl length_error), w.
      split; [apply (prng_random_vec_n_throws w s S); (done || lia)|].
      split; [done|].
      intros v s2 S2 Hv Hlen Hst. exists (inl length_error), v.
      split; [|done].
      pose proof (same_length_not_nil S S2 Hlen HS) as HS2.
      apply (prng_random_vec_n_throws v s2 S2); (done || lia).
Qed.

Lemma prng_random_arr_n_reads_only Count :
  reads_only (T := T) (random_prng.random_arr_n Count).
Proof.
  intros w s S Hs.
  destruct (decide (S = [] ∨ Count = 0)) as [HS|HS].
  - exists (replicate (Z.to_nat Count) value_init), w.
    assert (∀ (v : world T) s2 S2, objects v !! s2 = Some S2 →
              S2 = [] ∨ Count = 0 →
              random_prng.random_arr_n Count s2 v
              = Some (replicate (Z.to_nat Count) value_init, v)) as Hrun.
    { intros v s2 S2 Hv Hor. unfold random_prng.random_arr_n. unfold_M.
      rewrite (empty_run _ _ _ Hv). case_bool_decide; [done|].
      case_bool_decide; [done|]. by destruct Hor. }
    split; [by eapply Hrun|]. split; [done|].
    intros v s2 S2 Hv Hlen Hst. eexists _, v. split; [|done].
    eapply Hrun; [done|]. destruct HS as [HS|HS]; [left|by right].
    by eapply same_length_nil.
  - apply Decidable.not_or in HS as [HS Hc].
    destruct (prng_random_arr_n_run w s S Count Hs HS Hc
                (prng_draws_in_bounds contract S _ _ HS))
      as (xs & _ & Hrun).
    eexists xs, _. split; [exact Hrun|]. split; [done|].
    intros v s2 S2 Hv Hlen Hst.
    pose proof (same_length_not_nil S S2 Hlen HS) as HS2.
    destruct (prng_random_arr_n_run v s2 S2 Count Hv HS2 Hc
                (prng_draws_in_bounds contract S2 _ _ HS2))
      as (ys & _ & Hrun2).
    eexists ys, _. split; [exact Hrun2|].
    destruct (prng_statics v w Hst) as [-> Hat].
    by rewrite (index_distribution_length S S2).
Qed.
End prng_reads_only.

Section trng_reads_only.
Context `{std : StdRandom} {T : Type} `{!ValueInit T} `{!VectorLimits T}.
Hypothesis contract : StdRandomContract.

Lemma trng_random_vec_reads_only :
  reads_only (T := T) random_trng.random_vec.
Proof.
  intros w s S Hs. destruct (decide (S = [])) as [HS|HS].
  - exists value_init, w.
    assert (∀ (v : world T) s2, objects v !! s2 = Some [] →
              random_trng.random_vec s2 v = Some (value_init, v)) as Hrun.
    { intros v s2 Hv. unfold random_trng.random_vec. unfold_M.
      by rewrite (empty_run _ _ _ Hv). }
    subst S. split; [by apply Hrun|]. split; [done|].
    intros v s2 S2 Hv Hlen Hst. apply nil_length_inv in Hlen as ->.
    exists value_init, v. by split; [apply Hrun|].
  - pose proof (trng_index_in_bounds contract S (trng_engine w) HS) as Hc.
    destruct (trng_random_vec_run w s S Hs HS) as (x & _ & Hrun); [lia|].
    eexists x, _. split; [exact Hrun|]. split; [done|].
    intros v s2 S2 Hv Hlen Hst.
    pose proof (same_length_not_nil S S2 Hlen HS) as HS2.
    pose proof (trng_index_in_bounds contract S2 (trng_engine v) HS2) as Hc2.
    destruct (trng_random_vec_run v s2 S2 Hv HS2) as (y & _ & Hrun2); [lia|].
    eexists y, _. split; [exact Hrun2|].
    destruct (trng_statics v w Hst) as [-> Hat].
    by rewrite (index_distribution_length S S2).
Qed.

Lemma trng_random_arr_reads_only :
  reads_only (T := T) random_trng.random_arr.
Proof. apply trng_random_vec_reads_only. Qed.

Lemma trng_random_vec_n_reads_only count :
  reads_only (T := T) (λ vec, random_trng.random_vec_n vec count).
Proof.
  intros w s S Hs.
  destruct (decide (S = [] ∨ count = 0)) as [HS|HS].
  - exists (inr []), w.
    assert (∀ (v : world T) s2 S2, objects v !! s2 = Some S2 →
              S2 = [] ∨ count = 0 →
              random_trng.random_vec_n s2 count v = Some (inr [], v))
      as Hrun.
    { intros v s2 S2 Hv Hor. unfold random_trng.random_vec_n. unfold_M.
      rewrite (empty_run _ _ _ Hv). case_bool_decide; [done|].
      case_bool_decide; [done|]. by destruct Hor. }
    split; [by eapply Hrun|]. split; [done|].
    intros v s2 S2 Hv Hlen Hst. exists (inr []), v. split; [|done].
    eapply Hrun; [done|]. destruct HS as [HS|HS]; [left|by right].
    by eapply same_length_nil.
  - apply Decidable.not_or in HS as [HS Hc].
    destruct (decide (count = 1 ∨ count ≤ max_size)) as [Hmax|Hmax].
    + destruct (trng_random_vec_n_run w s S count Hs HS Hc Hmax
                  (trng_draws_in_bounds contract S _ _ HS))
        as (xs & _ & Hrun).
      eexists (inr xs), _. split; [exact Hrun|]. split; [done|].
      intros v s2 S2 Hv Hlen Hst.
      pose proof (same_length_not_nil S S2 Hlen HS) as HS2.
      destruct (trng_random_vec_n_run v s2 S2 count Hv HS2 Hc Hmax
                  (trng_draws_in_bounds contract S2 _ _ HS2))
        as (ys & _ & Hrun2).
      eexists (inr ys), _. split; [exact Hrun2|].
      destruct (trng_statics v w Hst) as [-> Hat].
      by rewrite (index_distribution_length S S2).
    + (* reserve throws before anything is read or drawn *)
      apply Decidable.not_or in Hmax as [Hc1 Hmax].
      exists (inl length_error), w.
      split; [apply (trng_random_vec_n_throws w s S); (done || lia)|].
      split; [done|].
      intros v s2 S2 Hv Hlen Hst. exists (inl length_error), v.
      split; [|done].
      pose proof (same_length_not_nil S S2 Hlen HS) as HS2.
      apply (trng_random_vec_n_throws v s2 S2); (done || lia).
Qed.

Lemma trng_random_arr_n_reads_only Count :
  reads_only (T := T) (random_trng.random_arr_n Count).
Proof.
  intros w s S Hs.
  destruct (decide (S = [] ∨ Count = 0)) as [HS|HS].
  - exists (replicate (Z.to_nat Count) value_init), w.
    assert (∀ (v : world T) s2 S2, objects v !! s2 = Some S2 →
              S2 = [] ∨ Count = 0 →
              random_trng.random_arr_n Count s2 v
              = Some (replicate (Z.to_nat Count) value_init, v)) as Hrun.
    { intros v s2 S2 Hv Hor. unfold random_trng.random_arr_n. unfold_M.
      rewrite (empty_run _ _ _ Hv). case_bool_decide; [done|].
      case_bool_decide; [done|]. by destruct Hor. }
    split; [by eapply Hrun|]. split; [done|].
    intros v s2 S2 Hv Hlen Hst. eexists _, v. split; [|done].
    eapply Hrun; [done|]. destruct HS as [HS|HS]; [left|by right].
    by eapply same_length_nil.
  - apply Decidable.not_or in HS as [HS Hc].
    destruct (trng_random_arr_n_run w s S Count Hs HS Hc
                (trng_draws_in_bounds contract S _ _ HS))
      as (xs & _ & Hrun).
    eexists xs, _. split; [exact Hrun|]. split; [done|].
    intros v s2 S2 Hv Hlen Hst.
    pose proof (same_length_not_nil S S2 Hlen HS) as HS2.
    destruct (trng_random_arr_n_run v s2 S2 Count Hv HS2 Hc
                (trng_draws_in_bounds contract S2 _ _ HS2))
      as (ys & _ & Hrun2).
    eexists ys, _. split; [exact Hrun2|].
    destruct (trng_statics v w Hst) as [-> Hat].
    by rewrite (index_distribution_length S S2).
Qed.
End trng_reads_only.

Lemma same_outcome_returns `{std : StdRandom} {T A : Type}
    (sim : mt19937_64 → random_device → Prop)
    (o1 o2 : option (A * world T)) (a : A) (v1 : world T) :
  o1 = Some (a, v1) → same_outcome sim o1 o2 →
  ∃ v2, o2 = Some (a, v2) ∧ driven_alike sim v1 v2.
Proof.
  intros -> Hsame. destruct o2 as [[b v2]|]; [|done].
  destruct Hsame as [-> Halike]. by exists v2.
Qed.

(** C6: random_trng follows random_prng operation by operation.  When the
    device behind random_trng feeds the distribution what the generator behind
    random_prng feeds it ([same_stream]), then on the same caller objects
    each of the four operations of random_trng returns the value the
    corresponding operation of random_prng returns (for the vector
    multi-draw beyond [max_size()], the same [std::length_error]), and the
    two engines are left related again; only the engine differs. *)
Theorem trng_same_as_prng `{std : StdRandom} {T : Type} `{!ValueInit T}
    `{!VectorLimits T} (contract : StdRandomContract)
    (sim : mt19937_64 → random_device → Prop) (stream : same_stream sim)
    (w1 w2 : world T) (s : ref) (S : list T) (count : Z) :
  driven_alike sim w1 w2 → objects w1 !! s = Some S →
  (∃ x v1 v2, random_prng.random_vec s w1 = Some (x, v1) ∧
              random_trng.random_vec s w2 = Some (x, v2) ∧
              driven_alike sim v1 v2) ∧
  (∃ r v1 v2, random_prng.random_vec_n s count w1 = Some (r, v1) ∧
              random_trng.random_vec_n s count w2 = Some (r, v2) ∧
              driven_alike sim v1 v2) ∧
  (∃ x v1 v2, random_prng.random_arr s w1 = Some (x, v1) ∧
              random_trng.random_arr s w2 = Some (x, v2) ∧
              driven_alike sim v1 v2) ∧
  (∃ r v1 v2, random_prng.random_arr_n count s w1 = Some (r, v1) ∧
              random_trng.random_arr_n count s w2 = Some (r, v2) ∧
              driven_alike sim v1 v2).
Proof.
  intros [Hobj Hsim] Hs. repeat apply conj.
  - destruct (prng_random_vec_reads_only contract w1 s S Hs)
      as (x & v1 & Hrun & _).
    destruct (same_outcome_returns sim _ _ x v1 Hrun
                (random_vec_side_by_side sim stream w1 w2 Hobj Hsim s))
      as (v2 & Hrun2 & Halike).
    by exists x, v1, v2.
  - destruct (prng_random_vec_n_reads_only contract count w1 s S Hs)
      as (r & v1 & Hrun & _).
    destruct (same_outcome_returns sim _ _ r v1 Hrun
                (random_vec_n_side_by_side sim stream w1 w2 Hobj Hsim s
                   count))
      as (v2 & Hrun2 & Halike).
    by exists r, v1, v2.
  - destruct (prng_random_arr_reads_only contract w1 s S Hs)
      as (x & v1 & Hrun & _).
    destruct (same_outcome_returns sim _ _ x v1 Hrun
                (random_arr_side_by_side sim stream w1 w2 Hobj Hsim s))
      as (v2 & Hrun2 & Halike).
    by exists x, v1, v2.
  - destruct (prng_random_arr_n_reads_only contract count w1 s S Hs)
      as (r & v1 & Hrun & _).
    destruct (same_outcome_returns sim _ _ r v1 Hrun
                (random_arr_n_side_by_side sim stream w1 w2 Hobj Hsim s
                   count))
      as (v2 & Hrun2 & Halike).
    by exists r, v1, v2.
Qed.

Lemma trng_same_as_prng_witness :
  driven_alike eq (toy.warm [10; 20; 30]) (toy.warm [10; 20; 30]) ∧
  objects (toy.warm [10; 20; 30]) !! 1%positive = Some [10; 20; 30] ∧
  ∃ r v1 v2,
    random_prng.random_arr_n 4 1%positive (toy.warm [10; 20; 30])
    = Some (r, v1) ∧
    random_trng.random_arr_n 4 1%positive (toy.warm [10; 20; 30])
    = Some (r, v2) ∧
    driven_alike eq v1 v2.
Proof.
  split; [split; reflexivity|]. split; [reflexivity|].
  exact (proj2 (proj2 (proj2
    (trng_same_as_prng toy_contract eq toy_same_stream
       (toy.warm [10; 20; 30]) (toy.warm [10; 20; 30]) 1%positive
       [10; 20; 30] 4 (conj eq_refl eq_refl) eq_refl)))).
Defined.

(** C8: every operation of either class only reads its argument.  Called on
    a live reference it returns with every caller object equal to what it was
    before the call, and what it leaves on the thread (the statics, the only
    state that outlives the call) is the same for any other sequence of that
    length at any other location: neither the reference nor an element is
    kept. *)
Theorem input_only_read `{std : StdRandom} {T : Type} `{!ValueInit T}
    `{!VectorLimits T} (contract : StdRandomContract) (count : Z) :
  reads_only (T := T) random_prng.random_vec ∧
  reads_only (T := T) (λ vec, random_prng.random_vec_n vec count) ∧
  reads_only (T := T) random_prng.random_arr ∧
  reads_only (T := T) (random_prng.random_arr_n count) ∧
  reads_only (T := T) random_trng.random_vec ∧
  reads_only (T := T) (λ vec, random_trng.random_vec_n vec count) ∧
  reads_only (T := T) random_trng.random_arr ∧
  reads_only (T := T) (random_trng.random_arr_n count).
Proof.
  repeat apply conj.
  - by apply prng_random_vec_reads_only.
  - by apply prng_random_vec_n_reads_only.
  - by apply prng_random_arr_reads_only.
  - by apply prng_random_arr_n_reads_only.
  - by apply trng_random_vec_reads_only.
  - by apply trng_random_vec_n_reads_only.
  - by apply trng_random_arr_reads_only.
  - by apply trng_random_arr_n_reads_only.
Qed.

Lemma input_only_read_witness :
  objects (toy.fresh [10; 20; 30]) !! 1%positive = Some [10; 20; 30] ∧
  ∃ r w', random_prng.random_vec_n 1%positive 5 (toy.fresh [10; 20; 30])
          = Some (r, w') ∧
          objects w' = objects (toy.fresh [10; 20; 30]) ∧
          ∃ r2 v', random_prng.random_vec_n 2%positive 5
                     (World {[ 2%positive := [7; 8; 9] ]} None None None)
                   = Some (r2, v') ∧
                   thread_statics v' = thread_statics w'.
Proof.
  split; [reflexivity|].
  destruct (input_only_read toy_contract 5) as (_ & Hn & _).
  destruct (Hn (toy.fresh [10; 20; 30]) 1%positive [10; 20; 30] eq_refl)
    as (r & w' & Hrun & Hobj & Hv).
  exists r, w'. split; [exact Hrun|]. split; [exact Hobj|].
  exact (Hv (World {[ 2%positive := [7; 8; 9] ]} None None None) 2%positive
            [7; 8; 9] eq_refl eq_refl eq_refl).
Defined.

(** * Further properties of the sampling classes *)

Section more_draws.
Context `{std : StdRandom} {E : Type}.
Variable call :
  uniform_int_distribution → E → Z * uniform_int_distribution * E.


Hypothesis call_param : ∀ d e,
  uniform_int_distribution_param (call d e).1.2
  = uniform_int_distribution_param d.


Hypothesis call_memoryless : memoryless call.

End more_draws.

Section more_picked.
Context {T : Type}.
Implicit Types (S : list T).


End more_picked.

Section prng_more.
Context `{std : StdRandom} {T : Type} `{!ValueInit T} `{!VectorLimits T}.
Implicit Types (w : world T) (S : list T).



Lemma prng_random_vec_trivial w s :
  objects w !! s = Some [] →
  random_prng.random_vec s w = Some (value_init, w).
Proof.
  intros Hs. unfold random_prng.random_vec. unfold_M.
  by rewrite (empty_run _ _ _ Hs).
Qed.

Lemma prng_random_vec_n_trivial w s S count :
  objects w !! s = Some S → S = [] ∨ count = 0 →
  random_prng.random_vec_n s count w = Some (inr [], w).
Proof.
  intros Hs Hor. unfold random_prng.random_vec_n. unfold_M.
  rewrite (empty_run _ _ _ Hs). case_bool_decide; [done|].
  case_bool_decide; [done|]. by destruct Hor.
Qed.

Lemma prng_random_arr_n_trivial w s S Count :
  objects w !! s = Some S → S = [] ∨ Count = 0 →
  random_prng.random_arr_n Count s w
  = Some (replicate (Z.to_nat Count) value_init, w).
Proof.
  intros Hs Hor. unfold random_prng.random_arr_n. unfold_M.
  rewrite (empty_run _ _ _ Hs). case_bool_decide; [done|].
  case_bool_decide; [done|]. by destruct Hor.
Qed.

Hypothesis contract : StdRandomContract.

(** Every operation leaves the thread either untouched or with its engine
    where a number of draws of the call's distribution took it. *)
Lemma prng_random_vec_post w s S :
  objects w !! s = Some S →
  ∃ x w', random_prng.random_vec s w = Some (x, w') ∧
          (w' = w ∨
           ∃ n, w' = prng_at w (draws call_mt19937_64 n (index_distribution S)
                                  (prng_engine w)).2).
Proof.
  intros Hs. destruct (decide (S = [])) as [->|HS].
  - exists value_init, w. split; [by apply prng_random_vec_trivial|by left].
  - pose proof (prng_index_in_bounds contract S (prng_engine w) HS).
    destruct (prng_random_vec_run w s S Hs HS) as (x & _ & Hrun); [lia|].
    eexists x, _. split; [exact Hrun|]. right. exists 1%nat.
    by rewrite draws_S.
Qed.

Lemma prng_random_vec_n_post count w s S :
  objects w !! s = Some S →
  ∃ r w', random_prng.random_vec_n s count w = Some (r, w') ∧
          (w' = w ∨
           ∃ n, w' = prng_at w (draws call_mt19937_64 n (index_distribution S)
                                  (prng_engine w)).2).
Proof.
  intros Hs. destruct (decide (S = [] ∨ count = 0)) as [HS|HS].
  - exists (inr []), w.
    split; [by eapply prng_random_vec_n_trivial|by left].
  - apply Decidable.not_or in HS as [HS Hc].
    destruct (decide (count = 1 ∨ count ≤ max_size)) as [Hmax|Hmax].
    + destruct (prng_random_vec_n_run w s S count Hs HS Hc Hmax
                  (prng_draws_in_bounds contract S _ _ HS))
        as (xs & _ & Hrun).
      eexists (inr xs), _. split; [exact Hrun|]. right. by eexists.
    + apply Decidable.not_or in Hmax as [Hc1 Hmax].
      exists (inl length_error), w. split; [|by left].
      apply (prng_random_vec_n_throws w s S); (done || lia).
Qed.

Lemma prng_random_arr_n_post Count w s S :
  objects w !! s = Some S →
  ∃ r w', random_prng.random_arr_n Count s w = Some (r, w') ∧
          (w' = w ∨
           ∃ n, w' = prng_at w (draws call_mt19937_64 n (index_distribution S)
                                  (prng_engine w)).2).
Proof.
  intros Hs. destruct (decide (S = [] ∨ Count = 0)) as [HS|HS].
  - eexists _, w. split; [by eapply prng_random_arr_n_trivial|by left].
  - apply Decidable.not_or in HS as [HS Hc].
    destruct (prng_random_arr_n_run w s S Count Hs HS Hc
                (prng_draws_in_bounds contract S _ _ HS))
      as (xs & _ & Hrun).
    eexists xs, _. split; [exact Hrun|]. right. by eexists.
Qed.

Hypothesis call_memoryless : memoryless call_mt19937_64.

End prng_more.

Section trng_more.
Context `{std : StdRandom} {T : Type} `{!ValueInit T} `{!VectorLimits T}.
Implicit Types (w : world T) (S : list T).



Lemma trng_random_vec_trivial w s :
  objects w !! s = Some [] →
  random_trng.random_vec s w = Some (value_init, w).
Proof.
  intros Hs. unfold random_trng.random_vec. unfold_M.
  by rewrite (empty_run _ _ _ Hs).
Qed.

Lemma trng_random_vec_n_trivial w s S count :
  objects w !! s = Some S → S = [] ∨ count = 0 →
  random_trng.random_vec_n s count w = Some (inr [], w).
Proof.
  intros Hs Hor. unfold random_trng.random_vec_n. unfold_M.
  rewrite (empty_run _ _ _ Hs). case_bool_decide; [done|].
  case_bool_decide; [done|]. by destruct Hor.
Qed.

Lemma trng_random_arr_n_trivial w s S Count :
  objects w !! s = Some S → S = [] ∨ Count = 0 →
  random_trng.random_arr_n Count s w
  = Some (replicate (Z.to_nat Count) value_init, w).
Proof.
  intros Hs Hor. unfold random_trng.random_arr_n. unfold_M.
  rewrite (empty_run _ _ _ Hs). case_bool_decide; [done|].
  case_bool_decide; [done|]. by destruct Hor.
Qed.

Hypothesis contract : StdRandomContract.

(** Every operation leaves the thread either untouched or with its engine
    where a number of draws of the call's distribution took it. *)
Lemma trng_random_vec_post w s S :
  objects w !! s = Some S →
  ∃ x w', random_trng.random_vec s w = Some (x, w') ∧
          (w' = w ∨
           ∃ n, w' = trng_at w (draws call_random_device n (index_distribution S)
                                  (trng_engine w)).2).
Proof.
  intros Hs. destruct (decide (S = [])) as [->|HS].
  - exists value_init, w. split; [by apply trng_random_vec_trivial|by left].
  - pose proof (trng_index_in_bounds contract S (trng_engine w) HS).
    destruct (trng_random_vec_run w s S Hs HS) as (x & _ & Hrun); [lia|].
    eexists x, _. split; [exact Hrun|]. right. exists 1%nat.
    by rewrite draws_S.
Qed.

Lemma trng_random_vec_n_post count w s S :
  objects w !! s = Some S →
  ∃ r w', random_trng.random_vec_n s count w = Some (r, w') ∧
          (w' = w ∨
           ∃ n, w' = trng_at w (draws call_random_device n (index_distribution S)
                                  (trng_engine w)).2).
Proof.
  intros Hs. destruct (decide (S = [] ∨ count = 0)) as [HS|HS].
  - exists (inr []), w.
    split; [by eapply trng_random_vec_n_trivial|by left].
  - apply Decidable.not_or in HS as [HS Hc].
    destruct (decide (count = 1 ∨ count ≤ max_size)) as [Hmax|Hmax].
    + destruct (trng_random_vec_n_run w s S count Hs HS Hc Hmax
                  (trng_draws_in_bounds contract S _ _ HS))
        as (xs & _ & Hrun).
      eexists (inr xs), _. split; [exact Hrun|]. right. by eexists.
    + apply Decidable.not_or in Hmax as [Hc1 Hmax].
      exists (inl length_error), w. split; [|by left].
      apply (trng_random_vec_n_throws w s S); (done || lia).
Qed.

Lemma trng_random_arr_n_post Count w s S :
  objects w !! s = Some S →
  ∃ r w', random_trng.random_arr_n Count s w = Some (r, w') ∧
          (w' = w ∨
           ∃ n, w' = trng_at w (draws call_random_device n (index_distribution S)
                                  (trng_engine w)).2).
Proof.
  intros Hs. destruct (decide (S = [] ∨ Count = 0)) as [HS|HS].
  - eexists _, w. split; [by eapply trng_random_arr_n_trivial|by left].
  - apply Decidable.not_or in HS as [HS Hc].
    destruct (trng_random_arr_n_run w s S Count Hs HS Hc
                (trng_draws_in_bounds contract S _ _ HS))
      as (xs & _ & Hrun).
    eexists xs, _. split; [exact Hrun|]. right. by eexists.
Qed.

Hypothesis call_memoryless : memoryless call_random_device.

End trng_more.






Section agreement.
Context `{std : StdRandom} {T : Type} `{!ValueInit T} `{!VectorLimits T}.
Hypothesis contract : StdRandomContract.
Implicit Types (w : world T) (S : list T).




Lemma prng_footprint_refl S w : prng_footprint S w w.
Proof.
  split; [done|]. split; [|by left].
  intros r g Hr Hg. split; [done|]. by exists 0%nat.
Qed.

Lemma prng_footprint_at S w n :
  prng_footprint S w
    (prng_at w (draws call_mt19937_64 n (index_distribution S)
                  (prng_engine w)).2).
Proof.
  split; [done|]. split.
  - intros r g Hr Hg. simpl. unfold prng_seed_device, prng_engine.
    rewrite Hr, Hg. split; [done|]. by exists n.
  - intros Hr Hg. right. simpl. unfold prng_seed_device, prng_engine.
    rewrite Hr, Hg. split; [done|]. by exists n.
Qed.

Lemma prng_footprint_post S w w' :
  w' = w ∨
  (∃ n, w' = prng_at w (draws call_mt19937_64 n (index_distribution S)
                          (prng_engine w)).2) →
  prng_footprint S w w'.
Proof.
  intros [->|[n ->]];
    [apply prng_footprint_refl|apply prng_footprint_at].
Qed.

Lemma trng_footprint_post S w w' :
  w' = w ∨
  (∃ n, w' = trng_at w (draws call_random_device n (index_distribution S)
                          (trng_engine w)).2) →
  trng_footprint S w w'.
Proof.
  intros [->|[n ->]].
  - split; [done|]. split; [done|]. by left.
  - split; [done|]. split; [done|]. right. by exists n.
Qed.
End agreement.



(** X4: what the operations of random_prng do to the thread.  Each of the
    four, on any live reference, completes (by a value, or for the vector
    multi-draw beyond [max_size()] by [std::length_error]) and then: the
    device of random_trng is as before; a generator that was built has only
    been advanced by draws of the call's distribution, never rebuilt or
    reseeded, and its seed device is as before; on a thread without statics
    the call has built nothing, or has read the new seed device exactly
    once, seeded the generator with that word and advanced it by draws
    only. *)
Theorem prng_seeds_once `{std : StdRandom} {T : Type} `{!ValueInit T}
    `{!VectorLimits T} (contract : StdRandomContract) (count : Z) :
  completes_with (T := T) prng_footprint random_prng.random_vec ∧
  completes_with (T := T) prng_footprint
    (λ vec, random_prng.random_vec_n vec count) ∧
  completes_with (T := T) prng_footprint random_prng.random_arr ∧
  completes_with (T := T) prng_footprint (random_prng.random_arr_n count).
Proof.
  repeat apply conj; intros w s S Hs.
  - destruct (prng_random_vec_post contract w s S Hs) as (x & w' & ? & ?).
    exists x, w'. split; [done|]. by apply prng_footprint_post.
  - destruct (prng_random_vec_n_post contract count w s S Hs)
      as (x & w' & ? & ?).
    exists x, w'. split; [done|]. by apply prng_footprint_post.
  - destruct (prng_random_vec_post contract w s S Hs) as (x & w' & ? & ?).
    exists x, w'. split; [done|]. by apply prng_footprint_post.
  - destruct (prng_random_arr_n_post contract count w s S Hs)
      as (x & w' & ? & ?).
    exists x, w'. split; [done|]. by apply prng_footprint_post.
Qed.

Lemma prng_seeds_once_witness :
  objects (toy.warm [10; 20; 30]) !! 1%positive = Some [10; 20; 30] ∧
  ∃ r w', random_prng.random_vec_n 1%positive 5 (toy.warm [10; 20; 30])
          = Some (r, w') ∧
          random_device_seed w' = Some 11 ∧ device w' = Some 42 ∧
          ∃ n, generator w'
               = Some (draws call_mt19937_64 n
                         (index_distribution [10; 20; 30]) 42).2.
Proof.
  split; [reflexivity|].
  destruct (proj1 (proj2 (prng_seeds_once toy_contract 5))
              (toy.warm [10; 20; 30]) 1%positive [10; 20; 30] eq_refl)
    as (r & w' & Hrun & Hdev & Hbuilt & _).
  exists r, w'. split; [exact Hrun|].
  destruct (Hbuilt 11 42 eq_refl eq_refl) as [Hseed Hgen].
  split; [exact Hseed|]. split; [exact Hdev|exact Hgen].
Defined.

(** X5: what the operations of random_trng do to the thread.  Each of the
    four, on any live reference, completes (by a value, or for the vector
    multi-draw beyond [max_size()] by [std::length_error]) and leaves the
    statics of random_prng as they were: it builds no generator and reads
    no seed; its own device is untouched or advanced by draws of the call's
    distribution. *)
Theorem trng_builds_no_generator `{std : StdRandom} {T : Type}
    `{!ValueInit T} `{!VectorLimits T} (contract : StdRandomContract)
    (count : Z) :
  completes_with (T := T) trng_footprint random_trng.random_vec ∧
  completes_with (T := T) trng_footprint
    (λ vec, random_trng.random_vec_n vec count) ∧
  completes_with (T := T) trng_footprint random_trng.random_arr ∧
  completes_with (T := T) trng_footprint (random_trng.random_arr_n count).
Proof.
  repeat apply conj; intros w s S Hs.
  - destruct (trng_random_vec_post contract w s S Hs) as (x & w' & ? & ?).
    exists x, w'. split; [done|]. by apply trng_footprint_post.
  - destruct (trng_random_vec_n_post contract count w s S Hs)
      as (x & w' & ? & ?).
    exists x, w'. split; [done|]. by apply trng_footprint_post.
  - destruct (trng_random_vec_post contract w s S Hs) as (x & w' & ? & ?).
    exists x, w'. split; [done|]. by apply trng_footprint_post.
  - destruct (trng_random_arr_n_post contract count w s S Hs)
      as (x & w' & ? & ?).
    exists x, w'. split; [done|]. by apply trng_footprint_post.
Qed.

Lemma trng_builds_no_generator_witness :
  objects (toy.fresh [10; 20; 30]) !! 1%positive = Some [10; 20; 30] ∧
  ∃ r w', random_trng.random_vec_n 1%positive 5 (toy.fresh [10; 20; 30])
          = Some (r, w') ∧
          random_device_seed w' = None ∧ generator w' = None.
Proof.
  split; [reflexivity|].
  destruct (proj1 (proj2 (trng_builds_no_generator toy_contract 5))
              (toy.fresh [10; 20; 30]) 1%positive [10; 20; 30] eq_refl)
    as (r & w' & Hrun & Hseed & Hgen & _).
  exists r, w'. split; [exact Hrun|]. split; [exact Hseed|exact Hgen].
Defined.

(** * The string helpers *)

Import cxx utils utils_spec.

(** The helpers run on concrete strings. *)

Example is_valid_url_mixed_case :
  is_valid_url (str "HtTpS://example.com/x?y=1&z") = Some true.
Proof. reflexivity. Qed.

Example is_valid_url_no_rest : is_valid_url (str "https://") = Some false.
Proof. reflexivity. Qed.

Example is_valid_url_space : is_valid_url (str "http://a b") = Some false.
Proof. reflexivity. Qed.

Example is_valid_url_double_colon :
  is_valid_url (str "http:://a") = Some false.
Proof. reflexivity. Qed.

Example is_valid_url_other_scheme : is_valid_url (str "ftp://a") = Some false.
Proof. reflexivity. Qed.

Example iequal_str_brackets : iequal_str (str "[") (str "{") = Some false.
Proof. reflexivity. Qed.

Example icontains_mixed_case :
  icontains (str "Hello World") (str "O W") = true.
Proof. reflexivity. Qed.

Example icontains_empty_in_empty : icontains (str "") (str "") = false.
Proof. reflexivity. Qed.

(** ** Characters *)

Lemma unsigned_char_range c : 0 ≤ unsigned_char c < 256.
Proof.
  unfold unsigned_char. pose proof (N_ascii_bounded c). lia.
Qed.

Lemma unsigned_char_inj c1 c2 : unsigned_char c1 = unsigned_char c2 → c1 = c2.
Proof.
  unfold unsigned_char. intros H. apply N2Z.inj in H.
  by rewrite <- (ascii_N_embedding c1), <- (ascii_N_embedding c2), H.
Qed.

Lemma to_char_unsigned_char c : to_char (unsigned_char c) = c.
Proof.
  unfold to_char, unsigned_char. rewrite N2Z.id. apply ascii_N_embedding.
Qed.

Lemma unsigned_char_to_char z : 0 ≤ z < 256 → unsigned_char (to_char z) = z.
Proof.
  intros Hz. unfold to_char, unsigned_char.
  rewrite N_ascii_embedding by lia. lia.
Qed.

Lemma tolower_range z : 0 ≤ z < 256 → 0 ≤ tolower z < 256.
Proof. unfold tolower. case_bool_decide; lia. Qed.

Lemma lower_range c : 0 ≤ lower c < 256.
Proof. apply tolower_range, unsigned_char_range. Qed.

Lemma tolower_idemp z : tolower (tolower z) = tolower z.
Proof. unfold tolower. repeat case_bool_decide; lia. Qed.

(** A letter in either case, given by its lower-case code. *)
Lemma lower_letter c z :
  97 ≤ z ≤ 122 →
  lower c = z ↔ unsigned_char c = z ∨ unsigned_char c = z - 32.
Proof.
  intros Hz. unfold lower, tolower. case_bool_decide; lia.
Qed.

(** Anything else folds to itself only. *)
Lemma lower_other c z :
  ¬ 65 ≤ z ≤ 90 → ¬ 97 ≤ z ≤ 122 → lower c = z ↔ unsigned_char c = z.
Proof.
  intros Hu Hz. unfold lower, tolower. case_bool_decide; lia.
Qed.

Lemma iequal_lower c1 c2 : iequal c1 c2 = true ↔ lower c1 = lower c2.
Proof. unfold iequal. apply bool_decide_eq_true. Qed.

Lemma iequal_run c1 c2 : iequal c1 c2 = bool_decide (lower c1 = lower c2).
Proof. done. Qed.

(** X6: [iequal] holds of two characters exactly when they are the same
    character or the same ASCII letter in the two cases; a digit, a
    punctuation sign or a byte outside ASCII is equal to itself only. *)
Theorem iequal_same_letter (c1 c2 : ascii) :
  iequal c1 c2 = true ↔
  c1 = c2 ∨
  (65 ≤ unsigned_char c1 ≤ 90 ∧ unsigned_char c2 = unsigned_char c1 + 32) ∨
  (65 ≤ unsigned_char c2 ≤ 90 ∧ unsigned_char c1 = unsigned_char c2 + 32).
Proof.
  rewrite iequal_lower. unfold lower, tolower. split.
  - intros H.
    destruct (decide (unsigned_char c1 = unsigned_char c2)) as [Heq|Hne].
    { left. by apply unsigned_char_inj. }
    right. repeat case_bool_decide; lia.
  - intros [->|[[H1 H2]|[H1 H2]]]; [done| |];
      repeat case_bool_decide; lia.
Qed.

(** ** iequal_str *)

Lemma equal_iequal_run l1 : ∀ l2,
  length l1 = length l2 →
  equal iequal l1 l2 = Some (bool_decide (lower <$> l1 = lower <$> l2)).
Proof.
  induction l1 as [|x l1 IH]; intros [|y l2] Hlen; try done.
  injection Hlen as Hlen. cbn [equal].
  rewrite iequal_run, !fmap_cons. case_bool_decide as Hxy.
  - rewrite IH by done. f_equal. apply bool_decide_ext.
    split; [by intros ->; rewrite Hxy|by intros [= _ ->]].
  - f_equal. symmetry. apply bool_decide_eq_false_2. by intros [= ? _].
Qed.

Lemma iequal_str_run str1 str2 :
  iequal_str str1 str2
  = Some (bool_decide (lower <$> str1 = lower <$> str2)).
Proof.
  unfold iequal_str. case_bool_decide as Hlen.
  - f_equal. symmetry. apply bool_decide_eq_false_2. intros Heq.
    apply Hlen. apply (f_equal length) in Heq.
    by rewrite !length_fmap in Heq.
  - apply equal_iequal_run. by destruct (decide (length str1 = length str2)).
Qed.

Lemma iequal_str_true str1 str2 :
  iequal_str str1 str2 = Some true ↔ lower <$> str1 = lower <$> str2.
Proof.
  rewrite iequal_str_run. split.
  - intros [= H]. by apply bool_decide_eq_true in H.
  - intros H. by rewrite bool_decide_eq_true_2.
Qed.

Lemma lower_fmap_eq (s t : list ascii) :
  lower <$> s = lower <$> t ↔ Forall2 (λ c1 c2, lower c1 = lower c2) s t.
Proof. by rewrite list_eq_Forall2, Forall2_fmap. Qed.

(** X7: [iequal_str] always returns (the comparison never reads past the end
    of the second string), and it returns true exactly when the two strings
    have the same length and the same characters once the ASCII upper-case
    letters are folded to lower case. *)
Theorem iequal_str_folds_case (str1 str2 : list ascii) :
  ∃ b, iequal_str str1 str2 = Some b ∧
       (b = true ↔
        length str1 = length str2 ∧
        Forall2 (λ c1 c2, lower c1 = lower c2) str1 str2).
Proof.
  exists (bool_decide (lower <$> str1 = lower <$> str2)).
  split; [apply iequal_str_run|].
  rewrite bool_decide_eq_true, lower_fmap_eq. split.
  - intros H. split; [by eapply Forall2_length|done].
  - by intros [_ H].
Qed.

(** X8: [iequal_str] is an equivalence on strings: reflexive, symmetric in
    its result, and transitive. *)
Theorem iequal_str_equivalence :
  (∀ s, iequal_str s s = Some true) ∧
  (∀ s t, iequal_str s t = iequal_str t s) ∧
  (∀ s t u, iequal_str s t = Some true → iequal_str t u = Some true →
            iequal_str s u = Some true).
Proof.
  repeat apply conj.
  - intros s. by apply iequal_str_true.
  - intros s t. rewrite !iequal_str_run. f_equal. by apply bool_decide_ext.
  - intros s t u. rewrite !iequal_str_true. congruence.
Qed.

(** ** Searching *)

Section searching.
Context {A : Type} (pred : A → A → bool).
Implicit Types (text pat : list A).

Lemma starts_with_spec text pat :
  starts_with pred text pat = true ↔
  ∃ mid post, text = mid ++ post ∧
              Forall2 (λ t p, pred t p = true) mid pat.
Proof.
  revert text. induction pat as [|p pat IH]; intros text.
  - split; [|by intros _; destruct text]. intros _. exists [], text.
    split; [done|constructor].
  - destruct text as [|t text]; simpl.
    + split; [done|]. intros (mid & post & Heq & HF).
      destruct mid; [inversion HF|done].
    + rewrite andb_true_iff, IH. split.
      * intros (Htp & mid & post & -> & HF).
        exists (t :: mid), post. split; [done|by constructor].
      * intros (mid & post & Heq & HF).
        inversion HF as [|t' p' mid' pat' Htp HF']; subst.
        injection Heq as -> ->. split; [done|]. by exists mid', post.
Qed.

Lemma starts_with_nil_text pat : starts_with pred [] pat = true → pat = [].
Proof. by destruct pat. Qed.

Lemma first_match_Some text : ∀ pat n,
  first_match pred text pat = Some n →
  (n ≤ length text)%nat ∧
  starts_with pred (drop n text) pat = true ∧
  ∀ m, (m < n)%nat → starts_with pred (drop m text) pat = false.
Proof.
  induction text as [|t text IH]; intros pat n; cbn [first_match].
  - destruct (starts_with pred [] pat) eqn:Hsw; [|done].
    intros [= <-]. split; [simpl; lia|]. split; [exact Hsw|]. intros m; lia.
  - destruct (starts_with pred (t :: text) pat) eqn:Hsw.
    + intros [= <-]. split; [simpl; lia|]. split; [exact Hsw|].
      intros m; lia.
    + destruct (first_match pred text pat) as [k|] eqn:Hfm; [|done].
      cbn [fmap option_fmap option_map].
      intros [= <-]. destruct (IH pat k Hfm) as (Hk & Hat & Hmin).
      split; [simpl; lia|]. split; [done|].
      intros [|m] Hm; [done|]. simpl. apply Hmin. lia.
Qed.

Lemma first_match_None text : ∀ pat m,
  first_match pred text pat = None →
  starts_with pred (drop m text) pat = false.
Proof.
  induction text as [|t text IH]; intros pat m; cbn [first_match].
  - destruct (starts_with pred [] pat) eqn:Hsw; [done|].
    intros _. by rewrite drop_nil.
  - destruct (starts_with pred (t :: text) pat) eqn:Hsw; [done|].
    destruct (first_match pred text pat) as [k|] eqn:Hfm; [done|].
    intros _. destruct m as [|m]; [done|]. simpl. by apply IH.
Qed.

(** The first match is at or before any match. *)
Lemma first_match_complete text pat m :
  starts_with pred (drop m text) pat = true →
  ∃ n, first_match pred text pat = Some n ∧ (n ≤ m)%nat.
Proof.
  intros Hm. destruct (first_match pred text pat) as [n|] eqn:Hfm.
  - exists n. split; [done|].
    destruct (first_match_Some _ _ _ Hfm) as (_ & _ & Hmin).
    destruct (decide (n ≤ m)%nat) as [|Hlt]; [done|].
    rewrite Hmin in Hm by lia. done.
  - by rewrite (first_match_None _ _ m Hfm) in Hm.
Qed.

(** [search] returns an offset other than [last] exactly when the text is
    not empty and the pattern matches somewhere in it. *)
Lemma search_found text pat :
  search pred text pat ≠ length text ↔
  text ≠ [] ∧
  ∃ pre mid post, text = pre ++ mid ++ post ∧
                  Forall2 (λ t p, pred t p = true) mid pat.
Proof.
  unfold search. split.
  - intros Hne. destruct (first_match pred text pat) as [n|] eqn:Hfm; [|done].
    simpl in Hne. destruct (first_match_Some _ _ _ Hfm) as (Hn & Hat & _).
    split; [intros ->; simpl in *; lia|].
    apply starts_with_spec in Hat as (mid & post & Hdrop & HF).
    exists (take n text), mid, post. split; [|done].
    by rewrite <- Hdrop, take_drop.
  - intros (Htext & pre & mid & post & -> & HF).
    destruct (first_match_complete (pre ++ mid ++ post) pat (length pre))
      as (n & Hfm & Hn).
    { rewrite drop_app_length. apply starts_with_spec. by exists mid, post. }
    rewrite Hfm. simpl. intros ->.
    destruct (first_match_Some _ _ _ Hfm) as (_ & Hat & _).
    rewrite drop_all in Hat. apply starts_with_nil_text in Hat as ->.
    destruct (pre ++ mid ++ post) as [|t text] eqn:Heq; [done|].
    simpl in Hfm. done.
Qed.
End searching.

(** ** icontains *)

Lemma iequal_Forall2 (s t : list ascii) :
  Forall2 (λ c1 c2, iequal c1 c2 = true) s t ↔ iequal_str s t = Some true.
Proof.
  rewrite iequal_str_true, lower_fmap_eq.
  split; intros HF; (eapply Forall2_impl; [exact HF|]); intros c1 c2;
    by rewrite iequal_lower.
Qed.

Lemma icontains_true text target :
  icontains text target = true ↔
  text ≠ [] ∧
  ∃ pre mid post, text = pre ++ mid ++ post ∧
                  iequal_str mid target = Some true.
Proof.
  unfold icontains. rewrite bool_decide_eq_true, search_found.
  split; intros (Hne & pre & mid & post & Heq & Hmid);
    (split; [done|]); exists pre, mid, post; (split; [done|]);
    by apply iequal_Forall2.
Qed.

(** X9: [icontains text target] is true exactly when [text] is not empty
    and some stretch of consecutive characters of [text] is [iequal_str] to
    [target]. *)
Theorem icontains_finds_substring (text target : list ascii) :
  icontains text target = true ↔
  text ≠ [] ∧
  ∃ pre mid post, text = pre ++ mid ++ post ∧
                  iequal_str mid target = Some true.
Proof. apply icontains_true. Qed.

(** X10: the empty cases of [icontains].  Nothing is found in an empty text,
    not even the empty target; the empty target is found in every non-empty
    text; a non-empty text contains itself. *)
Theorem icontains_empty_cases :
  (∀ target, icontains [] target = false) ∧
  (∀ text, icontains text [] = true ↔ text ≠ []) ∧
  (∀ text, text ≠ [] → icontains text text = true).
Proof.
  repeat apply conj.
  - intros target. apply not_true_is_false.
    rewrite icontains_true. by intros [? _].
  - intros text. rewrite icontains_true. split; [by intros [? _]|].
    intros Hne. split; [done|]. exists [], [], text. split; [done|].
    by apply iequal_str_true.
  - intros text Hne. apply icontains_true. split; [done|].
    exists [], text, []. split; [by rewrite app_nil_r|].
    by apply iequal_str_true.
Qed.

(** X11: what [icontains] finds in a text it finds in every text that
    contains it: adding characters in front or behind never loses a match. *)
Theorem icontains_extends (pre text post target : list ascii) :
  icontains text target = true →
  icontains (pre ++ text ++ post) target = true.
Proof.
  rewrite !icontains_true.
  intros (Hne & pre' & mid & post' & -> & Hmid). split.
  - intros Heq. apply app_eq_nil in Heq as [_ Heq].
    apply app_eq_nil in Heq as [Heq _]. done.
  - exists (pre ++ pre'), mid, (post' ++ post). split; [|done].
    by rewrite <- !app_assoc.
Qed.

Lemma icontains_extends_witness :
  icontains (str "World") (str "wor") = true ∧
  icontains (str "Hello " ++ str "World" ++ str "!") (str "wor") = true.
Proof.
  split; [reflexivity|].
  exact (icontains_extends (str "Hello ") (str "World") (str "!") (str "wor")
           eq_refl).
Defined.

Lemma icontains_fold_case text text' target target' :
  iequal_str text text' = Some true →
  iequal_str target target' = Some true →
  icontains text target = true → icontains text' target' = true.
Proof.
  rewrite !iequal_str_true, !icontains_true.
  intros Htext Htarget (Hne & pre & mid & post & -> & Hmid).
  apply iequal_str_true in Hmid. split.
  - intros ->. apply Hne. by apply fmap_nil_inv in Htext.
  - rewrite !fmap_app in Htext. symmetry in Htext.
    apply fmap_app_inv in Htext as (pre' & rest & Hpre & Hrest & ->).
    symmetry in Hrest.
    apply fmap_app_inv in Hrest as (mid' & post' & Hmid' & Hpost & ->).
    exists pre', mid', post'. split; [done|].
    apply iequal_str_true. congruence.
Qed.

(** X12: [icontains] does not see letter case in either argument: replacing
    the text and the target by strings [iequal_str] to them does not change
    the answer. *)
Theorem icontains_ignores_case (text text' target target' : list ascii) :
  iequal_str text text' = Some true →
  iequal_str target target' = Some true →
  icontains text target = icontains text' target'.
Proof.
  intros Htext Htarget.
  pose proof (icontains_fold_case text text' target target' Htext Htarget)
    as H1.
  assert (iequal_str text' text = Some true) as Htext'.
  { apply iequal_str_true. symmetry. by apply iequal_str_true. }
  assert (iequal_str target' target = Some true) as Htarget'.
  { apply iequal_str_true. symmetry. by apply iequal_str_true. }
  pose proof (icontains_fold_case text' text target' target Htext' Htarget')
    as H2.
  destruct (icontains text target), (icontains text' target'); try done.
  - by rewrite H1.
  - by rewrite H2.
Qed.

Lemma icontains_ignores_case_witness :
  iequal_str (str "Hello World") (str "HELLO world") = Some true ∧
  iequal_str (str "o w") (str "O W") = Some true ∧
  icontains (str "Hello World") (str "o w")
  = icontains (str "HELLO world") (str "O W").
Proof.
  split; [reflexivity|]. split; [reflexivity|].
  exact (icontains_ignores_case (str "Hello World") (str "HELLO world")
           (str "o w") (str "O W") eq_refl eq_refl).
Defined.

(** ** is_valid_url *)

Lemma subscript_in (s : list ascii) i c :
  0 ≤ i → s !! Z.to_nat i = Some c → subscript s i = Some c.
Proof.
  intros Hi Hc. unfold subscript. apply lookup_lt_Some in Hc as Hlt.
  by rewrite bool_decide_eq_true_2 by lia.
Qed.

Lemma subscript_middle (pre rest : list ascii) c :
  subscript (pre ++ c :: rest) (Z.of_nat (length pre)) = Some c.
Proof.
  apply subscript_in; [lia|]. rewrite Nat2Z.id. by apply list_lookup_middle.
Qed.

Lemma url_char_literal c :
  (unsigned_char c = literal ";" ∨ unsigned_char c = literal "|" ∨
   unsigned_char c = literal "`" ∨ unsigned_char c = literal "$") ↔
  (c = ";" ∨ c = "|" ∨ c = "`" ∨ c = "$")%char.
Proof.
  unfold literal. fold (unsigned_char ";") (unsigned_char "|")
    (unsigned_char "`") (unsigned_char "$").
  split; intros [H|[H|[H|H]]]; 
    try (apply unsigned_char_inj in H); subst; tauto.
Qed.


Lemma tail_loop_run rest : ∀ pre,
  ∃ b, for_return_false (length rest) (Z.of_nat (length pre))
         (λ i, ch ← subscript (pre ++ rest) i;
               let c := unsigned_char ch in
               if bool_decide (c = literal ";" ∨ c = literal "|" ∨
                               c = literal "`" ∨ c = literal "$")
               then Some true
               else if negb (isgraph c) then Some true
               else Some false) = Some b ∧
       (b = true ↔ Forall url_char rest).
Proof.
  induction rest as [|c rest IH]; intros pre.
  - exists true. split; [done|]. split; [constructor|done].
  - cbn [length for_return_false].
    rewrite subscript_middle. cbn [mbind option_bind]. cbv zeta.
    destruct (IH (pre ++ [c])) as (b & Hrun & Hb).
    rewrite <- app_assoc in Hrun. simpl in Hrun.
    rewrite length_app in Hrun. simpl in Hrun.
    replace (Z.of_nat (length pre + 1)) with (Z.of_nat (length pre) + 1)
      in Hrun by lia.
    case_bool_decide as Hbad.
    + exists false. split; [done|]. split; [done|].
      intros HF. apply Forall_cons in HF as [(_ & H1 & H2 & H3 & H4) _].
      apply url_char_literal in Hbad. tauto.
    + unfold isgraph. case_bool_decide as Hgraph; simpl.
      * exists b. split; [done|]. rewrite Hb, Forall_cons. 
        rewrite url_char_literal in Hbad. unfold url_char. 
        split; [|tauto]. intros HF. split; [|done]. 
        split; [done|]. repeat split; intros ->; tauto.
      * exists false. split; [done|]. split; [done|].
        intros HF. apply Forall_cons in HF as [(? & _) _]. done.
Qed.

Lemma npos_value : npos = 18446744073709551615.
Proof. reflexivity. Qed.

Lemma first_char_h c :
  to_char (tolower (unsigned_char c)) = "h"%char ↔ lower c = 104.
Proof.
  split; intros H.
  - apply (f_equal unsigned_char) in H.
    by rewrite unsigned_char_to_char in H
      by apply tolower_range, unsigned_char_range.
  - unfold lower in H. by rewrite H.
Qed.

Ltac subscript_step :=
  match goal with
  | |- context [subscript ?s ?i] =>
      let r := eval cbv in (s !! Z.to_nat i) in
      match r with
      | Some ?c => rewrite (subscript_in s i c) by (lia || reflexivity)
      end
  end.

Lemma scheme_loop_run c0 c1 c2 c3 (tail : list ascii) :
  for_return_false 3 1
    (λ i, c ← subscript (c0 :: c1 :: c2 :: c3 :: tail) i;
          b ← subscript (str "http") i;
          Some (bool_decide (tolower (unsigned_char c) ≠ literal b)))
  = Some (bool_decide (lower c1 = 116 ∧ lower c2 = 116 ∧ lower c3 = 112)).
Proof.
  cbn [for_return_false]. 
  repeat subscript_step. 
  cbn [mbind option_bind].
  change (literal "t") with 116. change (literal "p") with 112.
  unfold lower. repeat case_bool_decide; try done; tauto.
Qed.

Lemma is_valid_url_run4 (c0 c1 c2 c3 : ascii) (rest : list ascii) :
  let url := (c0 :: c1 :: c2 :: c3 :: ":" :: "/" :: "/" :: rest)%char in
  find url (str "://") = 4 →
  ∃ b, is_valid_url url = Some b ∧
       (b = true ↔
        (lower c0 = 104 ∧ lower c1 = 116 ∧ lower c2 = 116 ∧ lower c3 = 112) ∧
        rest ≠ [] ∧ Forall url_char rest).
Proof.
  intros url Hfind. unfold is_valid_url. cbv zeta. rewrite Hfind.
  rewrite bool_decide_eq_false_2 by done.
  subst url. repeat subscript_step. cbn [mbind option_bind].
  rewrite scheme_loop_run. cbn [mbind option_bind].
  rewrite (bool_decide_eq_false_2 (4 = npos)) by (rewrite npos_value; lia).
  rewrite (bool_decide_eq_false_2 (4 ≠ 4 ∧ 4 ≠ 5)) by lia.
  rewrite (bool_decide_eq_false_2 (4 = 5)) by lia.
  cbn [mbind option_bind].
  destruct (tail_loop_run rest [c0; c1; c2; c3; ":"; "/"; "/"]%char)
    as (b & Hrun & Hb).
  cbn [app length] in Hrun. change (Z.of_nat 7) with (4 + 3) in Hrun.
  replace (Z.to_nat (Z.of_nat (length (c0 :: c1 :: c2 :: c3 :: ":" :: "/"
             :: "/" :: rest)%char) - (4 + 3))) with (length rest)
    by (cbn [length]; lia).
  rewrite Hrun.
  case_bool_decide as H0.
  { exists false. split; [done|]. split; [done|].
    intros ((Hc0 & _) & _). exfalso. by apply H0, first_char_h. }
  assert (lower c0 = 104) as Hc0.
  { apply first_char_h.
    by destruct (ascii_dec (to_char (tolower (unsigned_char c0))) "h"). }
  case_bool_decide as H123; cbn [negb].
  2:{ exists false. split; [done|]. split; [done|]. tauto. }
  case_bool_decide as Hlen.
  { exists false. split; [done|]. split; [done|].
    intros (_ & Hne & _). exfalso.
    destruct rest; [done|]. cbn [length] in Hlen. lia. }
  exists b. split; [done|]. rewrite Hb. split; [|tauto].
  intros HF. split; [tauto|]. split; [|done].
  intros ->. cbn [length] in Hlen. lia.
Qed.


Lemma is_valid_url_run5 (c0 c1 c2 c3 c4 : ascii) (rest : list ascii) :
  let url :=
    (c0 :: c1 :: c2 :: c3 :: c4 :: ":" :: "/" :: "/" :: rest)%char in
  find url (str "://") = 5 →
  ∃ b, is_valid_url url = Some b ∧
       (b = true ↔
        (lower c0 = 104 ∧ lower c1 = 116 ∧ lower c2 = 116 ∧
         lower c3 = 112 ∧ lower c4 = 115) ∧
        rest ≠ [] ∧ Forall url_char rest).
Proof.
  intros url Hfind. unfold is_valid_url. cbv zeta. rewrite Hfind.
  rewrite bool_decide_eq_false_2 by done.
  subst url. repeat subscript_step. cbn [mbind option_bind].
  rewrite scheme_loop_run. cbn [mbind option_bind].
  rewrite (bool_decide_eq_false_2 (5 = npos)) by (rewrite npos_value; lia).
  rewrite (bool_decide_eq_false_2 (5 ≠ 4 ∧ 5 ≠ 5)) by lia.
  rewrite (bool_decide_eq_true_2 (5 = 5)) by lia.
  cbn [mbind option_bind]. change (literal "s") with 115.
  fold (lower c4).
  destruct (tail_loop_run rest [c0; c1; c2; c3; c4; ":"; "/"; "/"]%char)
    as (b & Hrun & Hb).
  cbn [app length] in Hrun. change (Z.of_nat 8) with (5 + 3) in Hrun.
  replace (Z.to_nat (Z.of_nat (length (c0 :: c1 :: c2 :: c3 :: c4 :: ":"
             :: "/" :: "/" :: rest)%char) - (5 + 3))) with (length rest)
    by (cbn [length]; lia).
  rewrite Hrun.
  case_bool_decide as H0.
  { exists false. split; [done|]. split; [done|].
    intros ((Hc0 & _) & _). exfalso. by apply H0, first_char_h. }
  assert (lower c0 = 104) as Hc0.
  { apply first_char_h.
    by destruct (ascii_dec (to_char (tolower (unsigned_char c0))) "h"). }
  case_bool_decide as H123; cbn [negb].
  2:{ exists false. split; [done|]. split; [done|]. tauto. }
  case_bool_decide as H4.
  { exists false. split; [done|]. split; [done|]. tauto. }
  case_bool_decide as Hlen.
  { exists false. split; [done|]. split; [done|].
    intros (_ & Hne & _). exfalso.
    destruct rest; [done|]. cbn [length] in Hlen. lia. }
  exists b. split; [done|]. rewrite Hb. split; [|tauto].
  intros HF. split; [|split; [|done]].
  - destruct (decide (lower c4 = 115)); tauto.
  - intros ->. cbn [length] in Hlen. lia.
Qed.

Lemma early_false url :
  find url (str "://") ≠ 4 → find url (str "://") ≠ 5 →
  is_valid_url url = Some false.
Proof.
  intros H4 H5. unfold is_valid_url. cbv zeta.
  destruct url as [|c0 url]; [done|].
  rewrite bool_decide_eq_false_2 by done.
  rewrite (subscript_in _ 0 c0) by (lia || reflexivity).
  cbn [mbind option_bind].
  case_bool_decide; [done|]. case_bool_decide; [done|].
  by rewrite bool_decide_eq_true_2.
Qed.

Lemma starts_with_eqb (text pat : list ascii) :
  starts_with Ascii.eqb text pat = true ↔ ∃ post, text = pat ++ post.
Proof.
  rewrite starts_with_spec. split.
  - intros (mid & post & -> & HF). exists post. f_equal.
    apply list_eq_Forall2. eapply Forall2_impl; [exact HF|].
    intros c1 c2. apply Ascii.eqb_eq.
  - intros (post & ->). exists pat, post. split; [done|].
    apply Forall2_same_length_lookup. split; [done|].
    intros i c1 c2 H1 H2. apply Ascii.eqb_eq. congruence.
Qed.

Lemma find_position url pat n :
  Z.of_nat n < npos → find url pat = Z.of_nat n →
  ∃ pre post, url = pre ++ pat ++ post ∧ length pre = n.
Proof.
  unfold find. intros Hn Hfind.
  destruct (first_match Ascii.eqb url pat) as [k|] eqn:Hfm; [|lia].
  apply Nat2Z.inj in Hfind as ->.
  destruct (first_match_Some _ _ _ _ Hfm) as (Hle & Hat & _).
  apply starts_with_eqb in Hat as [post Hpost].
  exists (take n url), post. split.
  - by rewrite <- Hpost, take_drop.
  - rewrite length_take. lia.
Qed.

Lemma starts_with_nil_pat {A} (pred : A → A → bool) text :
  starts_with pred text [] = true.
Proof. by destruct text. Qed.

Lemma not_colon c z : lower c = z → z ≠ 58 → Ascii.eqb c ":" = false.
Proof.
  intros Hc Hz. apply Ascii.eqb_neq. intros ->. apply Hz. by rewrite <- Hc.
Qed.

Lemma find_http (c0 c1 c2 c3 : ascii) (rest : list ascii) :
  lower c0 = 104 → lower c1 = 116 → lower c2 = 116 → lower c3 = 112 →
  find (c0 :: c1 :: c2 :: c3 :: ":" :: "/" :: "/" :: rest)%char (str "://")
  = 4.
Proof.
  intros H0 H1 H2 H3. unfold find.
  change (str "://") with [":"; "/"; "/"]%char.
  cbn [first_match starts_with].
  rewrite (not_colon c0 104), (not_colon c1 116), (not_colon c2 116),
    (not_colon c3 112) by (done || lia).
  by rewrite !Ascii.eqb_refl, starts_with_nil_pat.
Qed.

Lemma find_https (c0 c1 c2 c3 c4 : ascii) (rest : list ascii) :
  lower c0 = 104 → lower c1 = 116 → lower c2 = 116 → lower c3 = 112 →
  lower c4 = 115 →
  find (c0 :: c1 :: c2 :: c3 :: c4 :: ":" :: "/" :: "/" :: rest)%char
    (str "://")
  = 5.
Proof.
  intros H0 H1 H2 H3 H4. unfold find.
  change (str "://") with [":"; "/"; "/"]%char.
  cbn [first_match starts_with].
  rewrite (not_colon c0 104), (not_colon c1 116), (not_colon c2 116),
    (not_colon c3 112), (not_colon c4 115) by (done || lia).
  by rewrite !Ascii.eqb_refl, starts_with_nil_pat.
Qed.

Lemma lower_http : lower <$> str "http" = [104; 116; 116; 112].
Proof. reflexivity. Qed.

Lemma lower_https : lower <$> str "https" = [104; 116; 116; 112; 115].
Proof. reflexivity. Qed.

(** The two shapes of an accepted url, character by character. *)
Lemma http_url_cases url :
  http_url url ↔
  (∃ c0 c1 c2 c3 rest,
     url = (c0 :: c1 :: c2 :: c3 :: ":" :: "/" :: "/" :: rest)%char ∧
     (lower c0 = 104 ∧ lower c1 = 116 ∧ lower c2 = 116 ∧ lower c3 = 112) ∧
     rest ≠ [] ∧ Forall url_char rest) ∨
  (∃ c0 c1 c2 c3 c4 rest,
     url = (c0 :: c1 :: c2 :: c3 :: c4 :: ":" :: "/" :: "/" :: rest)%char ∧
     (lower c0 = 104 ∧ lower c1 = 116 ∧ lower c2 = 116 ∧ lower c3 = 112 ∧
      lower c4 = 115) ∧
     rest ≠ [] ∧ Forall url_char rest).
Proof.
  unfold http_url. rewrite lower_http, lower_https. split.
  - intros (scheme & rest & -> & [Hs|Hs] & Hne & HF).
    + left. destruct scheme as [|c0 [|c1 [|c2 [|c3 [|]]]]]; try done.
      injection Hs as ? ? ? ?. by exists c0, c1, c2, c3, rest.
    + right. destruct scheme as [|c0 [|c1 [|c2 [|c3 [|c4 [|]]]]]]; try done.
      injection Hs as ? ? ? ? ?. by exists c0, c1, c2, c3, c4, rest.
  - intros [(c0 & c1 & c2 & c3 & rest & -> & (H0 & H1 & H2 & H3) & Hne & HF)
           |(c0 & c1 & c2 & c3 & c4 & rest & -> &
             (H0 & H1 & H2 & H3 & H4) & Hne & HF)].
    + exists [c0; c1; c2; c3], rest. split; [done|]. split; [|done].
      left. cbn [fmap list_fmap]. congruence.
    + exists [c0; c1; c2; c3; c4], rest. split; [done|]. split; [|done].
      right. cbn [fmap list_fmap]. congruence.
Qed.

Lemma is_valid_url_http_url url :
  ∃ b, is_valid_url url = Some b ∧ (b = true ↔ http_url url).
Proof.
  setoid_rewrite http_url_cases.
  destruct (decide (find url (str "://") = 4)) as [H4|H4];
    [|destruct (decide (find url (str "://") = 5)) as [H5|H5]].
  - destruct (find_position url (str "://") 4) as (pre & rest & -> & Hlen);
      [rewrite npos_value; lia|done|].
    destruct pre as [|c0 [|c1 [|c2 [|c3 [|]]]]]; try done.
    destruct (is_valid_url_run4 c0 c1 c2 c3 rest H4) as (b & Hrun & Hb).
    exists b. split; [done|]. rewrite Hb. split.
    + intros (Hc & Hne & HF). left. by exists c0, c1, c2, c3, rest.
    + intros [(d0 & d1 & d2 & d3 & rest' & Heq & Hc & Hne & HF)
             |(d0 & d1 & d2 & d3 & d4 & rest' & Heq & Hc & Hne & HF)].
      * injection Heq as -> -> -> -> ->. done.
      * exfalso. rewrite Heq in H4.
        rewrite find_https in H4 by tauto. done.
  - destruct (find_position url (str "://") 5) as (pre & rest & -> & Hlen);
      [rewrite npos_value; lia|done|].
    destruct pre as [|c0 [|c1 [|c2 [|c3 [|c4 [|]]]]]]; try done.
    destruct (is_valid_url_run5 c0 c1 c2 c3 c4 rest H5) as (b & Hrun & Hb).
    exists b. split; [done|]. rewrite Hb. split.
    + intros (Hc & Hne & HF). right. by exists c0, c1, c2, c3, c4, rest.
    + intros [(d0 & d1 & d2 & d3 & rest' & Heq & Hc & Hne & HF)
             |(d0 & d1 & d2 & d3 & d4 & rest' & Heq & Hc & Hne & HF)].
      * exfalso. rewrite Heq in H5.
        rewrite find_http in H5 by tauto. done.
      * injection Heq as -> -> -> -> -> ->. done.
  - exists false. split; [by apply early_false|]. split; [done|].
    intros [(d0 & d1 & d2 & d3 & rest' & -> & Hc & Hne & HF)
           |(d0 & d1 & d2 & d3 & d4 & rest' & -> & Hc & Hne & HF)]; exfalso.
    + apply H4. apply find_http; tauto.
    + apply H5. apply find_https; tauto.
Qed.

Lemma url_char_code c :
  url_char c ↔
  33 ≤ unsigned_char c ≤ 126 ∧ unsigned_char c ≠ 59 ∧
  unsigned_char c ≠ 124 ∧ unsigned_char c ≠ 96 ∧ unsigned_char c ≠ 36.
Proof.
  unfold url_char.
  change 59 with (unsigned_char ";"). change 124 with (unsigned_char "|").
  change 96 with (unsigned_char "`"). change 36 with (unsigned_char "$").
  split; intros (Hr & H1 & H2 & H3 & H4); (split; [done|]);
    repeat split; try (intros ?%unsigned_char_inj; done);
    intros ->; done.
Qed.

Lemma url_char_fold c c' : lower c = lower c' → url_char c → url_char c'.
Proof.
  rewrite !url_char_code. unfold lower, tolower.
  repeat case_bool_decide; lia.
Qed.

Lemma url_char_letter c z : 97 ≤ z ≤ 122 → lower c = z → url_char c.
Proof.
  intros Hz Hc. apply lower_letter in Hc; [|done].
  rewrite url_char_code. lia.
Qed.

Lemma http_url_chars url :
  http_url url → 8 ≤ Z.of_nat (length url) ∧ Forall url_char url.
Proof.
  rewrite http_url_cases.
  assert (url_char ":") as Hcolon by (apply url_char_code; by compute).
  assert (url_char "/") as Hslash by (apply url_char_code; by compute).
  intros [(c0 & c1 & c2 & c3 & rest & -> & (H0 & H1 & H2 & H3) & Hne & HF)
         |(c0 & c1 & c2 & c3 & c4 & rest & -> &
           (H0 & H1 & H2 & H3 & H4) & Hne & HF)].
  - split.
    + destruct rest; [done|]. cbn [length]. lia.
    + repeat (apply Forall_cons; split); try done;
        eapply url_char_letter; try eassumption; lia.
  - split.
    + destruct rest; [done|]. cbn [length]. lia.
    + repeat (apply Forall_cons; split); try done;
        eapply url_char_letter; try eassumption; lia.
Qed.

Lemma http_url_app url ext :
  http_url url → Forall url_char ext → http_url (url ++ ext).
Proof.
  intros (scheme & rest & -> & Hs & Hne & HF) Hext.
  exists scheme, (rest ++ ext). split; [by rewrite <- !app_assoc|].
  split; [done|]. split; [|by apply Forall_app].
  intros [-> _]%app_eq_nil. done.
Qed.

Lemma lower_sep_inv (l : list ascii) :
  lower <$> l = lower <$> str "://" → l = str "://".
Proof.
  change (lower <$> str "://") with [58; 47; 47].
  destruct l as [|e1 [|e2 [|e3 [|]]]]; try done.
  intros [= H1 H2 H3].
  apply lower_other in H1; [|lia..]. apply lower_other in H2; [|lia..].
  apply lower_other in H3; [|lia..].
  change 58 with (unsigned_char ":") in H1.
  change 47 with (unsigned_char "/") in H2, H3.
  apply unsigned_char_inj in H1, H2, H3. by subst.
Qed.

Lemma http_url_fold url url' :
  lower <$> url = lower <$> url' → http_url url → http_url url'.
Proof.
  intros Hfold (scheme & rest & -> & Hs & Hne & HF).
  rewrite !fmap_app in Hfold. symmetry in Hfold.
  apply fmap_app_inv in Hfold as (scheme' & tail & Hscheme & Htail & ->).
  symmetry in Htail.
  apply fmap_app_inv in Htail as (sep' & rest' & Hsep & Hrest & ->).
  symmetry in Hsep. apply lower_sep_inv in Hsep as ->.
  exists scheme', rest'. split; [done|]. split; [|split].
  - rewrite <- Hscheme. done.
  - intros ->. apply Hne. by apply fmap_nil_inv in Hrest.
  - apply lower_fmap_eq in Hrest.
    clear -Hrest HF. induction Hrest as [|c c' rest rest' Hc _ IH];
      [constructor|].
    apply Forall_cons in HF as [Hc1 HF]. constructor; [|by apply IH].
    by apply (url_char_fold c).
Qed.

(** X13: [is_valid_url] always returns (every subscript it takes is inside
    the string), and it returns true exactly for the strings of the form
    scheme [://] rest where the scheme is http or https in any letter case
    and the rest is a non-empty run of graphic ASCII characters (codes 33
    to 126, so neither the space nor a control character) other than [;],
    [|], the backquote and [$]. *)
Theorem is_valid_url_accepts_http_urls (url : list ascii) :
  ∃ b, is_valid_url url = Some b ∧ (b = true ↔ http_url url).
Proof. apply is_valid_url_http_url. Qed.

Lemma is_valid_url_true url : is_valid_url url = Some true ↔ http_url url.
Proof.
  destruct (is_valid_url_http_url url) as (b & Hrun & Hb).
  rewrite Hrun, <- Hb. split; [by intros [= ->]|by intros ->].
Qed.

(** X14: an accepted url has at least eight characters, and every one of
    its characters, scheme included, is printable ASCII and none of [;],
    [|], the backquote, [$]: no space, control character or byte outside
    ASCII is ever let through. *)
Theorem accepted_url_characters (url : list ascii) :
  is_valid_url url = Some true →
  8 ≤ Z.of_nat (length url) ∧ Forall url_char url.
Proof. rewrite is_valid_url_true. apply http_url_chars. Qed.

Lemma accepted_url_characters_witness :
  is_valid_url (str "http://a") = Some true ∧
  8 ≤ Z.of_nat (length (str "http://a")) ∧ Forall url_char (str "http://a").
Proof.
  split; [reflexivity|].
  exact (accepted_url_characters (str "http://a") eq_refl).
Defined.

(** X15: [is_valid_url] does not see letter case anywhere in the string:
    two strings that [iequal_str] holds of get the same answer. *)
Theorem is_valid_url_ignores_case (url url' : list ascii) :
  iequal_str url url' = Some true →
  is_valid_url url = is_valid_url url'.
Proof.
  rewrite iequal_str_true. intros Hfold.
  destruct (is_valid_url_http_url url) as (b & -> & Hb).
  destruct (is_valid_url_http_url url') as (b' & -> & Hb').
  f_equal. destruct b, b'; try done.
  - symmetry. apply Hb'. apply (http_url_fold url); [done|]. by apply Hb.
  - apply Hb. apply (http_url_fold url'); [done|]. by apply Hb'.
Qed.

Lemma is_valid_url_ignores_case_witness :
  iequal_str (str "HTTPS://Example.COM/a") (str "https://example.com/A")
  = Some true ∧
  is_valid_url (str "HTTPS://Example.COM/a")
  = is_valid_url (str "https://example.com/A").
Proof.
  split; [reflexivity|].
  exact (is_valid_url_ignores_case (str "HTTPS://Example.COM/a")
           (str "https://example.com/A") eq_refl).
Defined.

(** X16: an accepted url stays accepted when characters are added at its
    end that are all graphic ASCII (codes 33 to 126, so no space) and none of
    [;], [|], the backquote, [$]. *)
Theorem accepted_url_extends (url ext : list ascii) :
  is_valid_url url = Some true → Forall url_char ext →
  is_valid_url (url ++ ext) = Some true.
Proof. rewrite !is_valid_url_true. apply http_url_app. Qed.

Lemma accepted_url_extends_witness :
  is_valid_url (str "http://a") = Some true ∧
  Forall url_char (str "/b") ∧
  is_valid_url (str "http://a" ++ str "/b") = Some true.
Proof.
  assert (Forall url_char (str "/b")) as Hext.
  { repeat constructor; compute; repeat split; discriminate. }
  split; [reflexivity|]. split; [exact Hext|].
  exact (accepted_url_extends (str "http://a") (str "/b") eq_refl Hext).
Defined.
